(** * espnow-bridge: the host side of the serial bridge (package [bridge])

    A shallow embedding of the Go bridge: the frame reassembler
    ([reassembleMessages]), the link writer ([writeBytes]), the peer table
    ([AddPeer], [RemovePeer]) and [WaitForConnected], followed by the
    properties of the protocol engine.

    Conventions.
    - A [byte] is [Byte.byte]; [uint16]/[uint64] values are [N] with the
      truncation of each conversion written out.
    - A receive-only channel of bytes is the list of what it will deliver,
      in order, until it is closed; between two bytes the 2-second timer of
      the handshake [select] may fire, which is the input event [Tick].
    - What a goroutine does to the outside (channel sends, writes to the
      shared flag) is the list of [event]s it produces, in program order.
    - The serial connection is the list of bytes written to it so far. *)

From Stdlib.Strings Require Import String Byte.
From Stdlib Require Import NArith ZArith Lia List Bool.
From stdpp Require Import base tactics option list.
Import ListNotations.

Local Open Scope N_scope.

(** ** Bytes and fixed-width conversions *)

#[global] Instance byte_eq_dec : EqDecision byte := Byte.byte_eq_dec.

(** [uint8(x)]: keep the low eight bits. *)
Definition uint8 (x : N) : byte :=
  match Byte.of_N (x mod 256) with
  | Some b => b
  | None => x00
  end.

(** [uint16(x)]: keep the low sixteen bits. *)
Definition uint16 (x : N) : N := x mod 65536.

(** ** CRC-16/XMODEM

    [crc.NewHashWithTable(crc.NewTable(crc.XMODEM))] of the external
    package github.com/snksoft/crc: width 16, polynomial 0x1021, initial
    value 0, no reflection, no final xor.  The register is shifted one bit
    at a time, most significant bit first. *)
Module CRC.

Definition poly : N := 0x1021.
Definition mask : N := 0xFFFF.

Definition shift1 (reg : N) : N :=
  if N.testbit reg 15
  then N.land (N.lxor (N.shiftl reg 1) poly) mask
  else N.land (N.shiftl reg 1) mask.

Definition update (reg : N) (b : byte) : N :=
  Nat.iter 8 shift1 (N.lxor reg (N.shiftl (Byte.to_N b) 8)).

(** [CalculateCRC(data)], a [uint64] in Go. *)
Definition CalculateCRC (data : list byte) : N :=
  N.land (fold_left update data 0) mask.

End CRC.

(** ** Data model *)

(** [[6]byte]: a hardware address. *)
Record Mac6 : Type := MkMac
  { o0 : byte; o1 : byte; o2 : byte; o3 : byte; o4 : byte; o5 : byte }.

#[global] Instance Mac6_eq_dec : EqDecision Mac6.
Proof. solve_decision. Defined.

(** [m[:]] *)
Definition mac_slice (m : Mac6) : list byte :=
  [o0 m; o1 m; o2 m; o3 m; o4 m; o5 m].

(** [copy(dst[:], src)] into a zeroed [[6]byte]: the first six bytes of
    [src], the array keeping its zeroes where [src] is shorter. *)
Definition copy_mac (src : list byte) : Mac6 :=
  MkMac (nth 0 src x00) (nth 1 src x00) (nth 2 src x00)
        (nth 3 src x00) (nth 4 src x00) (nth 5 src x00).

Record Message : Type := MkMessage { Mac : Mac6; Data : list byte }.

Record peer : Type := MkPeer { mac : Mac6; wifiChannel : byte }.

#[global] Instance peer_eq_dec : EqDecision peer.
Proof. solve_decision. Defined.

(** ** The byte channel *)

Inductive inp : Type :=
| Recv (b : byte)     (* the next byte sent by [readBytes] *)
| Tick.               (* two seconds pass and no byte has arrived *)

(** [b, more := <-input]: block until a byte arrives ([Some]) or the channel
    is closed and drained ([None]). *)
Fixpoint recv (input : list inp) : option (byte * list inp) :=
  match input with
  | [] => None
  | Tick :: rest => recv rest
  | Recv b :: rest => Some (b, rest)
  end.

(** [getBytes(input, len)]: the slice and the flag, with what is left of the
    channel.  After a failed read the channel is closed and empty. *)
Fixpoint getBytes (input : list inp) (len : nat) : list byte * bool * list inp :=
  match len with
  | O => ([], true, input)
  | S k =>
    match recv input with
    | None => ([], false, [])
    | Some (b, rest) =>
      match getBytes rest k with
      | (bs, true, rest') => (b :: bs, true, rest')
      | (_, false, _) => ([], false, [])
      end
    end
  end.

(** ** The frame reassembler *)

Inductive event : Type :=
| EReset                 (* [reset <- true] *)
| ESendPeers             (* [sendPeers <- true] *)
| EMsg (m : Message)     (* [output <- msg] *)
| EActive (b : bool)     (* [*active = b] *)
| EClose.                (* the deferred [close(output)] *)

Definition activationHeader : list byte := [x11; x22; x33; x44; x55; x66; x77].

(** The handshake loop [for detected < len(activationHeader) { select ... }].
    The result is the events sent meanwhile and, when the marker has been
    seen, the rest of the channel; [None] when the channel was closed. *)
Fixpoint awaitMarker (detected : nat) (input : list inp)
  : list event * option (list inp) :=
  if (length activationHeader <=? detected)%nat then ([], Some input)
  else
    match input with
    | [] => ([], None)
    | Recv b :: rest =>
      if decide (b = nth detected activationHeader x00)
      then awaitMarker (S detected) rest
      else awaitMarker 0 rest
    | Tick :: rest =>
      let '(evs, r) := awaitMarker detected rest in (EReset :: evs, r)
    end.

(** [uint16(crc[0]) | uint16(crc[1]) << 8] *)
Definition wireCRC (crc : list byte) : N :=
  N.lor (Byte.to_N (nth 0 crc x00)) (N.shiftl (Byte.to_N (nth 1 crc x00)) 8).

(** What one pass of the [switch] does. *)
Inductive dispatch : Type :=
| Return                                   (* [return] *)
| Continue (evs : list event) (active : bool) (rest : list inp).

(** [case header[0] == 0x55 && header[1] == 0x44]: the body of the case. *)
Definition inboundMessage (input : list inp) : dispatch :=
  let '(mac, _, input) := getBytes input 6 in
  let '(crc, _, input) := getBytes input 2 in
  match recv input with
  | None => Return
  | Some (size, input) =>
    match getBytes input (N.to_nat (Byte.to_N size)) with
    | (_, false, _) => Return
    | (data, true, input) =>
      let dataCRC := CRC.CalculateCRC data in
      if negb (wireCRC crc =? uint16 dataCRC)
      then Continue [EActive false] false input
      else Continue [EMsg (MkMessage (copy_mac mac) data)] true input
    end
  end.

(** The [switch] on the two header bytes. *)
Definition dispatchHeader (header : list byte) (input : list inp) : dispatch :=
  let h0 := nth 0 header x00 in
  let h1 := nth 1 header x00 in
  if decide (h0 = x55 /\ h1 = x44) then inboundMessage input
  else if decide (h0 = x44 /\ h1 = x33) then Continue [ESendPeers] true input
  else Continue [EActive false] false input.

(** One pass of the outer [for] of [reassembleMessages]; [again] is the
    jump back to the head of the loop. *)
Definition reassemblePass (again : bool -> list inp -> option (list event))
    (active : bool) (input : list inp) : option (list event) :=
  let '(evs0, synced) :=
    if active then ([], Some input)
    else
      match awaitMarker 0 input with
      | (evs, Some rest) => (EReset :: evs ++ [EActive true], Some rest)
      | (evs, None) => (EReset :: evs, None)
      end in
  match synced with
  | None => Some (evs0 ++ [EClose])
  | Some input =>
    match getBytes input 2 with
    | (_, false, _) => Some (evs0 ++ [EClose])
    | (header, true, input) =>
      match dispatchHeader header input with
      | Return => Some (evs0 ++ [EClose])
      | Continue evs1 active' input =>
        app (evs0 ++ evs1) <$> again active' input
      end
    end
  end.

(** The loop, [fuel] passes of it at most; [None] when the passes run out
    before the goroutine returns. *)
Fixpoint reassembleLoop (fuel : nat) (active : bool) (input : list inp)
  : option (list event) :=
  match fuel with
  | O => None
  | S fuel' => reassemblePass (reassembleLoop fuel') active input
  end.

(** [reassembleMessages(input, active, reset, sendPeers, output)] with
    [*active = active] on entry.  Every pass that does not return takes at
    least two bytes off the channel, so [length input] passes and one more
    are enough ([reassembleMessages_total]). *)
Definition reassembleMessages (active : bool) (input : list inp)
  : option (list event) :=
  reassembleLoop (S (length input)) active input.

(** The Messages put on the Inbox, in order. *)
Definition delivered (evs : list event) : list Message :=
  omap (fun e => match e with EMsg m => Some m | _ => None end) evs.

(** ** The link writer *)

Definition sendMessage : list byte := [x22; x11].
Definition resetMessage : list byte := [x42; x42; x42; x42].
Definition addPeer : list byte := [x33; x22].

(** The writer either goes on, with the connection as it now is, or stops
    the process in [log.Fatal], the connection being left as it was then. *)
Inductive outcome (A : Type) : Type :=
| Ok (a : A) (conn : list byte)
| Fatal (conn : list byte).
Arguments Ok {A} a conn.
Arguments Fatal {A} conn.

Definition W (A : Type) : Type := list byte -> outcome A.

Definition ret {A} (a : A) : W A := fun conn => Ok a conn.

Definition bind {A B} (m : W A) (k : A -> W B) : W B :=
  fun conn =>
    match m conn with
    | Ok a conn' => k a conn'
    | Fatal conn' => Fatal conn'
    end.

Notation "m ;; k" := (bind m (fun _ => k))
  (at level 100, k at level 200, right associativity).

(** [log.Fatal(...)] *)
Definition logFatal {A} : W A := fun conn => Fatal conn.

(** [assureWritten(target, data)]: [Write] is called on what is left of
    [data] until all of it has gone out, so on a link that takes the
    writes [data] is appended whole.  The link on which a [Write] fails is
    that of [assureWrittenOn] and [writeSelectOn] below. *)
Definition assureWritten (data : list byte) : W unit :=
  fun conn => Ok tt (conn ++ data).

(** [case msg := <-box]: the body of the case. *)
Definition sendFrame (msg : Message) : W unit :=
  (if (250 <? length (Data msg))%nat then logFatal else ret tt) ;;
  assureWritten sendMessage ;;
  assureWritten (mac_slice (Mac msg)) ;;
  let crc := CRC.CalculateCRC (Data msg) in
  assureWritten [uint8 (N.land crc 0xFF); uint8 (N.land (N.shiftr crc 8) 0xFF)] ;;
  assureWritten [uint8 (N.of_nat (length (Data msg)))] ;;
  assureWritten (Data msg).

(** [for _, p := range b.peers { ... }] *)
Fixpoint sendPeerTable (ps : list peer) : W unit :=
  match ps with
  | [] => ret tt
  | p :: ps' =>
    assureWritten addPeer ;;
    assureWritten (mac_slice (mac p)) ;;
    assureWritten [wifiChannel p] ;;
    sendPeerTable ps'
  end.

Record Bridge : Type := MkBridge
  { connection : list byte;       (* what has been written to the port *)
    active : bool;
    peers : list peer }.

(** The three channels [writeBytes] receives from. *)
Record chans : Type := MkChans
  { Outbox : list Message;        (* buffered: the Messages queued *)
    OutboxClosed : bool;          (* the channel has been closed *)
    resetReq : nat;               (* senders blocked in [reset <- true] *)
    sendPeersReq : nat }.         (* senders blocked in [sendPeers <- true] *)

(** The case a [select] proceeds with. *)
Inductive sel : Type := SelBox | SelReset | SelSendPeers | SelTimeout.

Definition zeroMessage : Message :=
  MkMessage (MkMac x00 x00 x00 x00 x00 x00) [].

(** One pass of the [for] of [writeBytes], the [select] proceeding with
    case [c]; [None] when that case is not one the [select] reached has, or
    its channel has nothing to receive.  The flag is read once, first, and
    here nothing happens between that and the [select]; [moveStep] below
    has the two apart.  The connection is open: the Outbox is the
    application's to close, and [Close], which closes it too, also closes
    the connection, after which there is no pass to speak of. *)
Definition writeBytesPass (c : sel) (b : Bridge) (ch : chans)
  : option (outcome chans) :=
  let recvReset :=
    match resetReq ch with
    | O => None
    | S n =>
      Some ((assureWritten resetMessage ;;
             ret (MkChans (Outbox ch) (OutboxClosed ch) n (sendPeersReq ch)))
              (connection b))
    end in
  if negb (active b) then
    match c with
    | SelReset => recvReset
    | SelTimeout => Some (Ok ch (connection b))
    | SelBox | SelSendPeers => None
    end
  else
    match c with
    | SelBox =>
      match Outbox ch with
      | msg :: rest =>
        Some ((sendFrame msg ;;
               ret (MkChans rest (OutboxClosed ch) (resetReq ch) (sendPeersReq ch)))
                (connection b))
      | [] =>
        if OutboxClosed ch
        then Some ((sendFrame zeroMessage ;; ret ch) (connection b))
        else None
      end
    | SelReset => recvReset
    | SelSendPeers =>
      match sendPeersReq ch with
      | O => None
      | S n =>
        Some ((sendPeerTable (peers b) ;;
               ret (MkChans (Outbox ch) (OutboxClosed ch) (resetReq ch) n))
                (connection b))
      end
    | SelTimeout => None
    end.

(** What goes on around the writer between two of its passes. *)
Inductive act : Type :=
| Pass (c : sel)          (* a pass of [writeBytes] *)
| Flag (a : bool)         (* the reassembler writes [*active = a] *)
| Send (m : Message)      (* the application: [b.Outbox <- m] *)
| AskReset                (* somebody blocks in [reset <- true] *)
| AskPeers.               (* the reassembler blocks in [sendPeers <- true] *)

Definition setConnection (b : Bridge) (conn : list byte) : Bridge :=
  MkBridge conn (active b) (peers b).

(** One action on the bridge and its channels.  [outbox := make(chan
    Message, 64)]: a [Send] on a full Outbox does not proceed. *)
Definition step (a : act) (b : Bridge) (ch : chans)
  : option (outcome (Bridge * chans)) :=
  match a with
  | Pass c =>
    match writeBytesPass c b ch with
    | None => None
    | Some (Ok ch' conn) => Some (Ok (setConnection b conn, ch') conn)
    | Some (Fatal conn) => Some (Fatal conn)
    end
  | Flag a => Some (Ok (MkBridge (connection b) a (peers b), ch) (connection b))
  | Send m =>
    if OutboxClosed ch then None
    else if (64 <=? length (Outbox ch))%nat then None
    else Some (Ok (b, MkChans (Outbox ch ++ [m]) (OutboxClosed ch) (resetReq ch)
                              (sendPeersReq ch))
                  (connection b))
  | AskReset =>
    Some (Ok (b, MkChans (Outbox ch) (OutboxClosed ch) (S (resetReq ch)) (sendPeersReq ch))
             (connection b))
  | AskPeers =>
    Some (Ok (b, MkChans (Outbox ch) (OutboxClosed ch) (resetReq ch) (S (sendPeersReq ch)))
             (connection b))
  end.

(** A run: the actions one after the other, up to the first [log.Fatal]. *)
Fixpoint run (acts : list act) (b : Bridge) (ch : chans)
  : option (outcome (Bridge * chans)) :=
  match acts with
  | [] => Some (Ok (b, ch) (connection b))
  | a :: acts' =>
    match step a b ch with
    | None => None
    | Some (Fatal conn) => Some (Fatal conn)
    | Some (Ok (b', ch') _) => run acts' b' ch'
    end
  end.

(** The Messages the application puts on the Outbox in the course of
    [acts], in order. *)
Definition queued (acts : list act) : list Message :=
  omap (fun a => match a with Send m => Some m | _ => None end) acts.

(** The bytes of one outbound frame on the wire. *)
Definition outboundFrame (msg : Message) : list byte :=
  let crc := CRC.CalculateCRC (Data msg) in
  sendMessage ++ mac_slice (Mac msg)
    ++ [uint8 (N.land crc 0xFF); uint8 (N.land (N.shiftr crc 8) 0xFF)]
    ++ [uint8 (N.of_nat (length (Data msg)))]
    ++ Data msg.

(** ** The peer table *)

Definition ErrPeerTableFull : String.string :=
  "ESP8266 can handle only 19 peers, remove peers first"%string.

(** [AddPeer]: the bridge afterwards and the error returned ([None] is
    [nil]).  [append(b.peers)] is given the slice and nothing to add. *)
Definition AddPeer (b : Bridge) (mac : Mac6) (wifiChannel : byte)
  : Bridge * option String.string :=
  if (20 <=? length (peers b))%nat then (b, Some ErrPeerTableFull)
  else
    let newPeer := MkPeer (copy_mac (mac_slice mac)) wifiChannel in
    (MkBridge (connection b) (active b) (peers b ++ []), None).

(** The search loop of [RemovePeer] from index [i] on: the first index whose
    address equals [m], [None] for [peerIndex == -1]. *)
Fixpoint findPeer (m : Mac6) (ps : list peer) (i : nat) : option nat :=
  match ps with
  | [] => None
  | p :: ps' =>
    if decide (mac_slice (mac p) = mac_slice m) then Some i
    else findPeer m ps' (S i)
  end.

Definition RemovePeer (b : Bridge) (m : Mac6) : Bridge :=
  match findPeer m (peers b) 0 with
  | None => b
  | Some peerIndex =>
    let n := length (peers b) in
    match peers b !! (n - 1)%nat with
    | Some lastPeer =>
      MkBridge (connection b) (active b)
               (take (n - 1) (<[peerIndex := lastPeer]> (peers b)))
    | None => b
    end
  end.

(** ** WaitForConnected

    Times are nanoseconds on the monotonic clock; [clock] is what the
    successive calls of [time.Now()] return.  The receiver is a copy of the
    bridge, so the flag tested in the loop is the one copied at the call.
    The result is how many times the loop slept before the call returned,
    [None] if it is still in the loop when the readings end. *)
Fixpoint waitLoop (active : bool) (end_ : Z) (clock : list Z) : option nat :=
  match clock with
  | [] => None
  | now :: clock' =>
    if (end_ <? now)%Z            (* [end.Before(time.Now())] *)
    then if active then Some O
         else S <$> waitLoop active end_ clock'
    else Some O
  end.

Definition WaitForConnected (b : Bridge) (maxWait : Z) (clock : list Z)
  : option nat :=
  match clock with
  | [] => None
  | now :: clock' => waitLoop (active b) (now + maxWait)%Z clock'
  end.

(** ** Frames as the device sends them, and what a channel carries *)

(** The two CRC bytes of a payload, low byte first. *)
Definition crcBytes (data : list byte) : list byte :=
  let crc := CRC.CalculateCRC data in
  [uint8 (N.land crc 0xFF); uint8 (N.land (N.shiftr crc 8) 0xFF)].

(** A [55 44] frame: address, two CRC bytes, length, payload, the bytes
    [msg_recv_cb] of the firmware writes for a payload of at most 255
    bytes when [crc] is [crcBytes data]. *)
Definition inboundFrame (m : Mac6) (crc : list byte) (data : list byte) : list byte :=
  [x55; x44] ++ mac_slice m ++ crc ++ [uint8 (N.of_nat (length data))] ++ data.

(** The bytes a channel delivers, the timer events left out. *)
Definition bytes_of (input : list inp) : list byte :=
  omap (fun i => match i with Recv b => Some b | Tick => None end) input.

(** The match counter of the handshake loop after the bytes [bs], started
    at [detected]; it stays where it is once the marker is complete. *)
Fixpoint detectedAfter (detected : nat) (bs : list byte) : nat :=
  if (length activationHeader <=? detected)%nat then detected
  else
    match bs with
    | [] => detected
    | b :: bs' =>
      if decide (b = nth detected activationHeader x00)
      then detectedAfter (S detected) bs'
      else detectedAfter 0 bs'
    end.
(** ** The scenario of the protocol description: address
    [AA:BB:CC:DD:EE:FF], payload ["hi"] *)

Definition scenarioMac : Mac6 := MkMac xaa xbb xcc xdd xee xff.
Definition hi : list byte := [x68; x69].

(** ** The rest of the writer's side *)

(** One [33 22] frame: what the [sendPeers] case writes for a peer. *)
Definition peerFrame (p : peer) : list byte :=
  addPeer ++ mac_slice (mac p) ++ [wifiChannel p].

(** What the writer puts on the wire at a time. *)
Definition isFrame (f : list byte) : Prop :=
  f = resetMessage
  \/ (exists msg, (length (Data msg) <= 250)%nat /\ f = outboundFrame msg)
  \/ (exists p, f = peerFrame p).

(** What is on the connection when the writer has gone on or has stopped. *)
Definition wire {A} (o : outcome A) : list byte :=
  match o with Ok _ conn => conn | Fatal conn => conn end.

(** Of the frames on the wire, those with the header of a Message. *)
Definition messageFrames (frames : list (list byte)) : list (list byte) :=
  filter (fun f => take 2 f = sendMessage) frames.

(** What a call [target.Write(p)] comes back with. *)
Inductive written : Type :=
| Wrote (n : nat)           (* [n] bytes of [p] taken, no error *)
| WriteFailed (n : nat).    (* [n] bytes of [p] taken, and an error *)

(** [assureWritten(target, data)] on a link that answers the successive
    calls of [Write] with [link]: the answers left over and the connection,
    or [log.Fatal]; [None] when the loop is still going round after the
    last answer.  [data] is [data[index:]], what is still to go out. *)
Fixpoint assureWrittenOn (link : list written) (data : list byte)
    (conn : list byte) : option (outcome (list written)) :=
  match data with
  | [] => Some (Ok link conn)
  | _ :: _ =>
    match link with
    | [] => None
    | WriteFailed n :: _ => Some (Fatal (conn ++ take n data))
    | Wrote n :: link' =>
      assureWrittenOn link' (drop n data) (conn ++ take n data)
    end
  end.

(** ** What the device sends in sync *)

Inductive inbound : Type :=
| InMessage (msg : Message)     (* a [55 44] frame *)
| InPeers.                      (* [44 33]: the request for the peers *)

Definition inboundBytes (i : inbound) : list byte :=
  match i with
  | InMessage msg => inboundFrame (Mac msg) (crcBytes (Data msg)) (Data msg)
  | InPeers => [x44; x33]
  end.

(** What the reassembler is to do on it. *)
Definition inboundEvent (i : inbound) : event :=
  match i with
  | InMessage msg => EMsg msg
  | InPeers => ESendPeers
  end.

(** ** The reassembler as a state machine *)

(** How many times the timer fires on a channel. *)
Fixpoint ticks (input : list inp) : nat :=
  match input with
  | [] => O
  | Tick :: rest => S (ticks rest)
  | Recv _ :: rest => ticks rest
  end.

(** Where the reassembler is: out of sync with the reset request still to
    send, scanning for the marker, in sync, returned. *)
Inductive phase : Type := NeedReset | Scanning | InSync | Closed.

(** The events a phase allows, and the phase they lead to. *)
Definition phaseStep (ph : phase) (e : event) : option phase :=
  match ph, e with
  | NeedReset, EReset => Some Scanning
  | Scanning, EReset => Some Scanning
  | Scanning, EActive true => Some InSync
  | Scanning, EClose => Some Closed
  | InSync, EMsg m =>
    if (length (Data m) <=? 255)%nat then Some InSync else None
  | InSync, ESendPeers => Some InSync
  | InSync, EActive false => Some NeedReset
  | InSync, EClose => Some Closed
  | _, _ => None
  end.

(** The traces that follow the phases and end returned. *)
Fixpoint accepts (ph : phase) (evs : list event) : bool :=
  match evs with
  | [] => match ph with Closed => true | _ => false end
  | e :: evs' =>
    match phaseStep ph e with
    | Some ph' => accepts ph' evs'
    | None => false
    end
  end.

Definition entryPhase (active : bool) : phase :=
  if active then InSync else NeedReset.

(** The flag as a phase of the reassembler has it. *)
Definition flagIn (ph : phase) (active : bool) : Prop :=
  match ph with
  | NeedReset | Scanning => active = false
  | InSync => active = true
  | Closed => True
  end.

(** ** Reassembler and writer together

    [reset] and [sendPeers] are unbuffered: a send of the reassembler
    returns when a pass of the writer has received it. *)
Definition service (e : event) : list act :=
  match e with
  | EReset => [AskReset; Pass SelReset]
  | ESendPeers => [AskPeers; Pass SelSendPeers]
  | EActive a => [Flag a]
  | EMsg _ | EClose => []
  end.

(** What the writer writes for an event of the reassembler. *)
Definition serviced (ps : list peer) (e : event) : list byte :=
  match e with
  | EReset => resetMessage
  | ESendPeers => concat (map peerFrame ps)
  | EMsg _ | EActive _ | EClose => []
  end.

(** ** The writer as it runs

    Two things the passes above leave out.  A [Write] may take a part of
    the slice only, or fail, which ends the process in [log.Fatal] with a
    part of a frame on the wire.  And the writer reads [b.active] at the
    head of a pass and then waits in the [select] of the branch it took:
    the flag may be written, and Messages queued, while it waits. *)

(** The slices the [msg := <-box] case hands to [assureWritten], in the
    order of the calls. *)
Definition framePieces (msg : Message) : list (list byte) :=
  let crc := CRC.CalculateCRC (Data msg) in
  [sendMessage;
   mac_slice (Mac msg);
   [uint8 (N.land crc 0xFF); uint8 (N.land (N.shiftr crc 8) 0xFF)];
   [uint8 (N.of_nat (length (Data msg)))];
   Data msg].

(** The slices the [sendPeers] case hands to [assureWritten] for a peer. *)
Definition peerPieces (p : peer) : list (list byte) :=
  [addPeer; mac_slice (mac p); [wifiChannel p]].

(** Calls of [assureWritten] one after the other, on a link that answers
    the calls of [Write] with [link]. *)
Fixpoint assureAllOn (link : list written) (pieces : list (list byte))
    (conn : list byte) : option (outcome (list written)) :=
  match pieces with
  | [] => Some (Ok link conn)
  | data :: pieces' =>
    match assureWrittenOn link data conn with
    | Some (Ok link' conn') => assureAllOn link' pieces' conn'
    | Some (Fatal conn') => Some (Fatal conn')
    | None => None
    end
  end.

(** The [select] of a writer that has read the flag as [seen], proceeding
    with case [c] on the bridge and the channels as they are by then. *)
Definition writeSelectOn (seen : bool) (c : sel) (b : Bridge) (ch : chans)
    (link : list written) : option (outcome (chans * list written)) :=
  let write (pieces : list (list byte)) (ch' : chans) :=
    match assureAllOn link pieces (connection b) with
    | Some (Ok link' conn') => Some (Ok (ch', link') conn')
    | Some (Fatal conn') => Some (Fatal conn')
    | None => None
    end in
  let recvReset :=
    match resetReq ch with
    | O => None
    | S n =>
      write [resetMessage]
            (MkChans (Outbox ch) (OutboxClosed ch) n (sendPeersReq ch))
    end in
  if negb seen then
    match c with
    | SelReset => recvReset
    | SelTimeout => Some (Ok (ch, link) (connection b))
    | SelBox | SelSendPeers => None
    end
  else
    match c with
    | SelBox =>
      match Outbox ch with
      | msg :: rest =>
        if (250 <? length (Data msg))%nat then Some (Fatal (connection b))
        else write (framePieces msg)
                   (MkChans rest (OutboxClosed ch) (resetReq ch) (sendPeersReq ch))
      | [] =>
        if OutboxClosed ch then write (framePieces zeroMessage) ch else None
      end
    | SelReset => recvReset
    | SelSendPeers =>
      match sendPeersReq ch with
      | O => None
      | S n =>
        write (concat (map peerPieces (peers b)))
              (MkChans (Outbox ch) (OutboxClosed ch) (resetReq ch) n)
      end
    | SelTimeout => None
    end.

(** Where the writer is in its loop. *)
Inductive wpc : Type :=
| AtHead                   (* about to read [b.active] *)
| InSelect (seen : bool).  (* waiting in the [select] of the branch taken *)

(** What happens, one thing at a time. *)
Inductive move : Type :=
| Test                     (* the writer reads [b.active] and enters a [select] *)
| Receive (c : sel)        (* its [select] proceeds with case [c] *)
| Around (a : act).        (* the flag is written, a Message is queued, a
                              request is made; a [Pass] is not of these *)

Definition moveStep (mv : move) (b : Bridge) (ch : chans) (pc : wpc)
    (link : list written)
  : option (outcome (Bridge * chans * wpc * list written)) :=
  match mv with
  | Test =>
    match pc with
    | AtHead => Some (Ok (b, ch, InSelect (active b), link) (connection b))
    | InSelect _ => None
    end
  | Receive c =>
    match pc with
    | AtHead => None
    | InSelect seen =>
      match writeSelectOn seen c b ch link with
      | Some (Ok (ch', link') conn) =>
        Some (Ok (setConnection b conn, ch', AtHead, link') conn)
      | Some (Fatal conn) => Some (Fatal conn)
      | None => None
      end
    end
  | Around (Pass _) => None
  | Around a =>
    match step a b ch with
    | Some (Ok (b', ch') conn) => Some (Ok (b', ch', pc, link) conn)
    | Some (Fatal conn) => Some (Fatal conn)
    | None => None
    end
  end.

(** The moves one after the other, up to the first [log.Fatal]. *)
Fixpoint play (mvs : list move) (b : Bridge) (ch : chans) (pc : wpc)
    (link : list written)
  : option (outcome (Bridge * chans * wpc * list written)) :=
  match mvs with
  | [] => Some (Ok (b, ch, pc, link) (connection b))
  | mv :: mvs' =>
    match moveStep mv b ch pc link with
    | None => None
    | Some (Fatal conn) => Some (Fatal conn)
    | Some (Ok (b', ch', pc', link') _) => play mvs' b' ch' pc' link'
    end
  end.

(** The Messages queued in the course of the moves, in order. *)
Definition queuedMoves (mvs : list move) : list Message :=
  omap (fun mv => match mv with Around (Send m) => Some m | _ => None end) mvs.

(** A pass with nothing in between: the flag read and the [select] at once. *)
Definition movesOf (a : act) : list move :=
  match a with
  | Pass c => [Test; Receive c]
  | _ => [Around a]
  end.

(** ** Bytes *)

Lemma to_N_lt (b : byte) : Byte.to_N b < 256.
Proof. pose proof (Byte.to_N_bounded b). lia. Qed.

Lemma to_N_uint8 (x : N) : Byte.to_N (uint8 x) = x mod 256.
Proof.
  unfold uint8.
  destruct (Byte.of_N (x mod 256)) as [b|] eqn:E.
  - by apply Byte.to_of_N.
  - apply Byte.of_N_None_iff in E.
    pose proof (N.mod_upper_bound x 256). lia.
Qed.

Lemma uint8_to_N (b : byte) : uint8 (Byte.to_N b) = b.
Proof.
  unfold uint8. rewrite N.mod_small by apply to_N_lt.
  by rewrite Byte.of_to_N.
Qed.

Lemma to_N_inj (a b : byte) : Byte.to_N a = Byte.to_N b -> a = b.
Proof. intros H. rewrite <- (uint8_to_N a), <- (uint8_to_N b). by rewrite H. Qed.

Lemma uint8_length (n : nat) :
  (n <= 255)%nat -> N.to_nat (Byte.to_N (uint8 (N.of_nat n))) = n.
Proof. intros H. rewrite to_N_uint8, N.mod_small; lia. Qed.

Lemma land_low_high (a b : N) : N.land (a mod 2 ^ 8) (b * 2 ^ 8) = 0.
Proof.
  apply N.bits_inj_0. intros i. rewrite N.land_spec.
  destruct (N.lt_ge_cases i 8) as [Hi|Hi].
  - rewrite N.mul_pow2_bits_low by done. apply andb_false_r.
  - by rewrite N.mod_pow2_bits_high.
Qed.

(** The two bytes the writer sends put together again are the low sixteen
    bits of the CRC. *)
Lemma wireCRC_split (c : N) :
  wireCRC [uint8 (N.land c 0xFF); uint8 (N.land (N.shiftr c 8) 0xFF)] = uint16 c.
Proof.
  unfold wireCRC, uint16. cbn [nth].
  rewrite !to_N_uint8.
  change 0xFF with (N.ones 8). rewrite !N.land_ones.
  change 256 with (2 ^ 8). rewrite !N.Div0.mod_mod.
  rewrite N.shiftr_div_pow2, N.shiftl_mul_pow2.
  rewrite <- N.lxor_lor, <- N.add_nocarry_lxor by apply land_low_high.
  change 65536 with (2 ^ 8 * 2 ^ 8). rewrite N.Div0.mod_mul_r. lia.
Qed.

Lemma crcBytes_accepted (data : list byte) :
  wireCRC (crcBytes data) = uint16 (CRC.CalculateCRC data).
Proof. apply wireCRC_split. Qed.

Lemma copy_mac_slice (m : Mac6) : copy_mac (mac_slice m) = m.
Proof. by destruct m. Qed.

Lemma mac_slice_inj (m1 m2 : Mac6) : mac_slice m1 = mac_slice m2 -> m1 = m2.
Proof. intros H. rewrite <- (copy_mac_slice m1), <- (copy_mac_slice m2). by rewrite H. Qed.

(** ** Receiving from the channel *)

Lemma recv_length input b rest :
  recv input = Some (b, rest) -> (length rest < length input)%nat.
Proof.
  induction input as [|[c|] input IH]; cbn; intros H; simplify_eq; try lia.
  specialize (IH H). lia.
Qed.

Lemma getBytes_length input n bs rest :
  getBytes input n = (bs, true, rest) ->
  length bs = n /\ (length rest + n <= length input)%nat.
Proof.
  revert input bs rest. induction n as [|n IH]; cbn; intros input bs rest H.
  - simplify_eq. cbn. lia.
  - destruct (recv input) as [[b r]|] eqn:Er; [|done].
    destruct (getBytes r n) as [[bs' [|]] r'] eqn:Eg; [|done].
    simplify_eq. apply recv_length in Er. apply IH in Eg as [<- ?].
    cbn. lia.
Qed.

Lemma getBytes_fail input n bs rest :
  getBytes input n = (bs, false, rest) -> bs = [] /\ rest = [].
Proof.
  destruct n as [|n]; cbn; [done|].
  destruct (recv input) as [[b r]|]; [|by intros [= <- <-]].
  destruct (getBytes r n) as [[bs' [|]] r']; [done|by intros [= <- <-]].
Qed.

(** Reading [length bs] bytes off a channel that starts with [bs]. *)
Lemma getBytes_app bs rest :
  getBytes (map Recv bs ++ rest) (length bs) = (bs, true, rest).
Proof. induction bs as [|b bs IH]; cbn; [done|]. by rewrite IH. Qed.

Lemma awaitMarker_length detected input evs rest :
  awaitMarker detected input = (evs, Some rest) ->
  (length rest <= length input)%nat.
Proof.
  revert detected evs. induction input as [|[b|] input IH]; intros d evs; cbn.
  - case_match; intros; simplify_eq; cbn; lia.
  - case_match; [intros; simplify_eq; cbn; lia|].
    case_decide; intros Hx; apply IH in Hx; lia.
  - case_match; [intros; simplify_eq; cbn; lia|].
    destruct (awaitMarker d input) as [evs' r] eqn:E. intros; simplify_eq.
    apply IH in E. lia.
Qed.

Lemma inboundMessage_length input evs active' rest :
  inboundMessage input = Continue evs active' rest ->
  (length rest < length input)%nat.
Proof.
  unfold inboundMessage.
  destruct (getBytes input 6) as [[mac [|]] in1] eqn:E1;
    [apply getBytes_length in E1 as [_ ?]
    |apply getBytes_fail in E1 as [_ ->]].
  2: { by cbn. }
  destruct (getBytes in1 2) as [[crc [|]] in2] eqn:E2;
    [apply getBytes_length in E2 as [_ ?]
    |apply getBytes_fail in E2 as [_ ->]].
  2: { by cbn. }
  destruct (recv in2) as [[size in3]|] eqn:E3; [|done].
  apply recv_length in E3.
  destruct (getBytes in3 _) as [[data [|]] in4] eqn:E4; [|done].
  apply getBytes_length in E4 as [_ ?].
  case_match; intros; simplify_eq; lia.
Qed.

Lemma dispatchHeader_length header input evs active' rest :
  dispatchHeader header input = Continue evs active' rest ->
  (length rest <= length input)%nat.
Proof.
  unfold dispatchHeader. repeat case_decide; intros Hx; simplify_eq; [|lia..].
  apply inboundMessage_length in Hx. lia.
Qed.

(** ** The loop of the reassembler ends *)

(** A pass jumps back only with a shorter channel. *)
Lemma reassemblePass_ext again1 again2 active input :
  (forall a rest, (length rest < length input)%nat -> again1 a rest = again2 a rest) ->
  reassemblePass again1 active input = reassemblePass again2 active input.
Proof.
  intros Hag. unfold reassemblePass.
  assert (forall evs0 in1, (length in1 <= length input)%nat ->
    match getBytes in1 2 with
    | (_, false, _) => Some (evs0 ++ [EClose])
    | (header, true, in2) =>
      match dispatchHeader header in2 with
      | Return => Some (evs0 ++ [EClose])
      | Continue evs1 active' in3 => app (evs0 ++ evs1) <$> again1 active' in3
      end
    end =
    match getBytes in1 2 with
    | (_, false, _) => Some (evs0 ++ [EClose])
    | (header, true, in2) =>
      match dispatchHeader header in2 with
      | Return => Some (evs0 ++ [EClose])
      | Continue evs1 active' in3 => app (evs0 ++ evs1) <$> again2 active' in3
      end
    end) as Hbody.
  { intros evs0 in1 Hle.
    destruct (getBytes in1 2) as [[header [|]] in2] eqn:E2; [|done].
    apply getBytes_length in E2 as [_ ?].
    destruct (dispatchHeader header in2) as [|evs1 a' in3] eqn:Ed; [done|].
    apply dispatchHeader_length in Ed. rewrite Hag; [done|lia]. }
  destruct active; [by apply Hbody|].
  destruct (awaitMarker 0 input) as [evs [rest|]] eqn:Ea; [|done].
  apply awaitMarker_length in Ea. by apply Hbody.
Qed.

Lemma reassembleLoop_fuel fuel1 fuel2 active input :
  (length input < fuel1)%nat -> (length input < fuel2)%nat ->
  reassembleLoop fuel1 active input = reassembleLoop fuel2 active input.
Proof.
  revert fuel2 active input.
  induction fuel1 as [|fuel1 IH]; intros [|fuel2] active input H1 H2; try lia.
  cbn [reassembleLoop]. apply reassemblePass_ext.
  intros a rest Hlt. apply IH; lia.
Qed.

(** The loop as written: a pass, and the loop again. *)
Lemma reassembleMessages_unfold active input :
  reassembleMessages active input =
  reassemblePass reassembleMessages active input.
Proof.
  unfold reassembleMessages at 1. cbn [reassembleLoop].
  apply reassemblePass_ext. intros a rest Hlt.
  unfold reassembleMessages. apply reassembleLoop_fuel; lia.
Qed.

Lemma reassemblePass_total again active input :
  (forall a rest, (length rest < length input)%nat -> is_Some (again a rest)) ->
  is_Some (reassemblePass again active input).
Proof.
  intros Hag. unfold reassemblePass.
  assert (forall evs0 in1, (length in1 <= length input)%nat ->
    is_Some
    match getBytes in1 2 with
    | (_, false, _) => Some (evs0 ++ [EClose])
    | (header, true, in2) =>
      match dispatchHeader header in2 with
      | Return => Some (evs0 ++ [EClose])
      | Continue evs1 active' in3 => app (evs0 ++ evs1) <$> again active' in3
      end
    end) as Hbody.
  { intros evs0 in1 Hle.
    destruct (getBytes in1 2) as [[header [|]] in2] eqn:E2; [|done].
    apply getBytes_length in E2 as [_ ?].
    destruct (dispatchHeader header in2) as [|evs1 a' in3] eqn:Ed; [done|].
    apply dispatchHeader_length in Ed.
    apply fmap_is_Some, Hag. lia. }
  destruct active; [by apply Hbody|].
  destruct (awaitMarker 0 input) as [evs [rest|]] eqn:Ea; [|done].
  apply awaitMarker_length in Ea. by apply Hbody.
Qed.

(** The goroutine returns on every channel that is closed in the end. *)
Lemma reassembleMessages_total active input :
  is_Some (reassembleMessages active input).
Proof.
  remember (length input) as n eqn:Hn.
  revert active input Hn. induction (lt_wf n) as [n _ IH].
  intros active input ->. rewrite reassembleMessages_unfold.
  apply reassemblePass_total. intros a rest Hlt. by eapply IH.
Qed.

(** ** The timer does not change what is delivered *)

Lemma recv_bytes_of input :
  recv (map Recv (bytes_of input)) =
  match recv input with
  | Some (b, rest) => Some (b, map Recv (bytes_of rest))
  | None => None
  end.
Proof. induction input as [|[b|] input IH]; cbn; done. Qed.

Lemma getBytes_bytes_of input n :
  getBytes (map Recv (bytes_of input)) n =
  match getBytes input n with
  | (bs, ok, rest) => (bs, ok, map Recv (bytes_of rest))
  end.
Proof.
  revert input. induction n as [|n IH]; intros input; cbn [getBytes]; [done|].
  rewrite recv_bytes_of. destruct (recv input) as [[b r]|]; [|done].
  rewrite IH. by destruct (getBytes r n) as [[bs [|]] r'].
Qed.

Lemma awaitMarker_eq detected input :
  awaitMarker detected input =
  if (length activationHeader <=? detected)%nat then ([], Some input)
  else
    match input with
    | [] => ([], None)
    | Recv b :: rest =>
      if decide (b = nth detected activationHeader x00)
      then awaitMarker (S detected) rest
      else awaitMarker 0 rest
    | Tick :: rest =>
      let '(evs, r) := awaitMarker detected rest in (EReset :: evs, r)
    end.
Proof. by destruct input. Qed.

Lemma bytes_of_recv b input : bytes_of (Recv b :: input) = b :: bytes_of input.
Proof. done. Qed.

Lemma bytes_of_tick input : bytes_of (Tick :: input) = bytes_of input.
Proof. done. Qed.

Lemma bytes_of_map_Recv bs : bytes_of (map Recv bs) = bs.
Proof. induction bs as [|b bs IH]; [done|]. cbn [map]. by rewrite bytes_of_recv, IH. Qed.

Lemma awaitMarker_bytes_of detected input :
  awaitMarker detected (map Recv (bytes_of input)) =
  ([], (fun rest => map Recv (bytes_of rest)) <$> (awaitMarker detected input).2).
Proof.
  revert detected. induction input as [|[b|] input IH]; intros d.
  - change (bytes_of []) with (@nil byte). cbn [map].
    rewrite (awaitMarker_eq d []). by destruct (_ <=? _)%nat.
  - rewrite bytes_of_recv. cbn [map].
    rewrite (awaitMarker_eq d (Recv b :: map _ _)), (awaitMarker_eq d (Recv b :: input)).
    destruct (_ <=? _)%nat; [done|]. case_decide; apply IH.
  - rewrite bytes_of_tick, (awaitMarker_eq d (Tick :: input)).
    destruct (_ <=? d)%nat eqn:Ed.
    + by rewrite awaitMarker_eq, Ed.
    + rewrite IH. by destruct (awaitMarker d input).
Qed.

Lemma awaitMarker_delivered detected input :
  delivered (awaitMarker detected input).1 = [].
Proof.
  revert detected. induction input as [|[b|] input IH]; intros d;
    rewrite awaitMarker_eq; destruct (_ <=? d)%nat; try done.
  - case_decide; apply IH.
  - specialize (IH d). by destruct (awaitMarker d input).
Qed.

Lemma inboundMessage_bytes_of input :
  inboundMessage (map Recv (bytes_of input)) =
  match inboundMessage input with
  | Return => Return
  | Continue evs a rest => Continue evs a (map Recv (bytes_of rest))
  end.
Proof.
  unfold inboundMessage. rewrite getBytes_bytes_of.
  destruct (getBytes input 6) as [[mac ok1] in1].
  rewrite getBytes_bytes_of. destruct (getBytes in1 2) as [[crc ok2] in2].
  rewrite recv_bytes_of. destruct (recv in2) as [[size in3]|]; [|done].
  rewrite getBytes_bytes_of.
  destruct (getBytes in3 _) as [[data [|]] in4]; [|done].
  by case_match.
Qed.

Lemma dispatchHeader_bytes_of header input :
  dispatchHeader header (map Recv (bytes_of input)) =
  match dispatchHeader header input with
  | Return => Return
  | Continue evs a rest => Continue evs a (map Recv (bytes_of rest))
  end.
Proof.
  unfold dispatchHeader. repeat case_decide; try done.
  apply inboundMessage_bytes_of.
Qed.

Lemma delivered_app evs1 evs2 :
  delivered (evs1 ++ evs2) = delivered evs1 ++ delivered evs2.
Proof. apply omap_app. Qed.

Lemma reassemblePass_bytes_of again1 again2 active input :
  (forall a rest, (length rest < length input)%nat ->
     delivered <$> again1 a (map Recv (bytes_of rest)) = delivered <$> again2 a rest) ->
  delivered <$> reassemblePass again1 active (map Recv (bytes_of input)) =
  delivered <$> reassemblePass again2 active input.
Proof.
  intros Hag. unfold reassemblePass.
  assert (forall evs0 evs0' in1,
    (length in1 <= length input)%nat -> delivered evs0 = delivered evs0' ->
    delivered <$>
    match getBytes (map Recv (bytes_of in1)) 2 with
    | (_, false, _) => Some (evs0 ++ [EClose])
    | (header, true, in2) =>
      match dispatchHeader header in2 with
      | Return => Some (evs0 ++ [EClose])
      | Continue evs1 active' in3 => app (evs0 ++ evs1) <$> again1 active' in3
      end
    end =
    delivered <$>
    match getBytes in1 2 with
    | (_, false, _) => Some (evs0' ++ [EClose])
    | (header, true, in2) =>
      match dispatchHeader header in2 with
      | Return => Some (evs0' ++ [EClose])
      | Continue evs1 active' in3 => app (evs0' ++ evs1) <$> again2 active' in3
      end
    end) as Hbody.
  { intros evs0 evs0' in1 Hle Hev. rewrite getBytes_bytes_of.
    destruct (getBytes in1 2) as [[header [|]] in2] eqn:E2; cbn;
      [|by rewrite !delivered_app, Hev].
    apply getBytes_length in E2 as [_ ?].
    rewrite dispatchHeader_bytes_of.
    destruct (dispatchHeader header in2) as [|evs1 a' in3] eqn:Ed; cbn;
      [by rewrite !delivered_app, Hev|].
    apply dispatchHeader_length in Ed.
    rewrite <- !option_fmap_compose.
    specialize (Hag a' in3 ltac:(lia)).
    destruct (again1 a' _), (again2 a' in3); cbn in *; simplify_eq; [|done].
    by rewrite !delivered_app, Hev, Hag. }
  destruct active; [by apply Hbody|].
  rewrite awaitMarker_bytes_of.
  pose proof (awaitMarker_delivered 0 input) as Hd.
  destruct (awaitMarker 0 input) as [evs [rest|]] eqn:Ea;
    cbn [fst snd fmap option_fmap option_map] in Hd |- *.
  - apply awaitMarker_length in Ea. apply Hbody; [done|].
    change (delivered [] = delivered (evs ++ [EActive true])).
    by rewrite delivered_app, Hd.
  - change (Some (delivered [EClose]) = Some (delivered (evs ++ [EClose]))).
    by rewrite delivered_app, Hd.
Qed.

(** What is delivered depends on the bytes only, not on when they come. *)
Lemma delivered_bytes_of active input :
  delivered <$> reassembleMessages active input =
  delivered <$> reassembleMessages active (map Recv (bytes_of input)).
Proof.
  remember (length input) as n eqn:Hn.
  revert active input Hn. induction (lt_wf n) as [n _ IH].
  intros active input ->. symmetry.
  rewrite (reassembleMessages_unfold _ input), (reassembleMessages_unfold _ (map _ _)).
  apply reassemblePass_bytes_of. intros a rest Hlt.
  symmetry. by eapply IH.
Qed.

(** ** The handshake scan *)

Lemma detectedAfter_eq detected bs :
  detectedAfter detected bs =
  if (length activationHeader <=? detected)%nat then detected
  else
    match bs with
    | [] => detected
    | b :: bs' =>
      if decide (b = nth detected activationHeader x00)
      then detectedAfter (S detected) bs'
      else detectedAfter 0 bs'
    end.
Proof. by destruct bs. Qed.

(** As long as the marker has not been completed, the scan over a prefix
    only moves the counter. *)
Lemma awaitMarker_detectedAfter pre detected rest :
  (detectedAfter detected pre < length activationHeader)%nat ->
  awaitMarker detected (map Recv pre ++ rest) =
  awaitMarker (detectedAfter detected pre) rest.
Proof.
  revert detected. induction pre as [|b pre IH]; intros d;
    rewrite detectedAfter_eq;
    destruct (length activationHeader <=? d)%nat eqn:Ed;
    try (apply Nat.leb_le in Ed; lia); try done.
  intros H. cbn [map app]. rewrite awaitMarker_eq, Ed.
  case_decide; by apply IH.
Qed.

Lemma awaitMarker_header rest :
  awaitMarker 0 (map Recv activationHeader ++ rest) = ([], Some rest).
Proof. cbn -[awaitMarker]. by rewrite !awaitMarker_eq. Qed.

(** ** One inbound frame *)

Lemma getBytes_segment bs rest n :
  n = length bs -> getBytes (map Recv bs ++ rest) n = (bs, true, rest).
Proof. intros ->. apply getBytes_app. Qed.

(** The body of the [55 44] case on a frame that is all there. *)
Lemma inboundMessage_frame m crc data rest :
  length crc = 2%nat -> (length data <= 255)%nat ->
  inboundMessage
    (map Recv (mac_slice m ++ crc ++ [uint8 (N.of_nat (length data))] ++ data) ++ rest) =
  if negb (wireCRC crc =? uint16 (CRC.CalculateCRC data))
  then Continue [EActive false] false rest
  else Continue [EMsg (MkMessage m data)] true rest.
Proof.
  intros Hcrc Hlen. unfold inboundMessage.
  rewrite !map_app, <- !app_assoc.
  rewrite (getBytes_segment (mac_slice m)) by done.
  rewrite (getBytes_segment crc) by done.
  cbn [map app recv]. rewrite uint8_length by done.
  rewrite getBytes_app. by rewrite copy_mac_slice.
Qed.

Lemma reassemble_frame m crc data rest :
  length crc = 2%nat -> (length data <= 255)%nat ->
  reassembleMessages true (map Recv (inboundFrame m crc data) ++ rest) =
  if negb (wireCRC crc =? uint16 (CRC.CalculateCRC data))
  then cons (EActive false) <$> reassembleMessages false rest
  else cons (EMsg (MkMessage m data)) <$> reassembleMessages true rest.
Proof.
  intros Hcrc Hlen. rewrite reassembleMessages_unfold.
  unfold reassemblePass, inboundFrame.
  rewrite map_app, <- app_assoc.
  rewrite (getBytes_segment [x55; x44]) by done.
  unfold dispatchHeader. cbn [nth]. rewrite decide_True by done.
  rewrite inboundMessage_frame by done.
  by destruct (negb _).
Qed.

Lemma reassembleMessages_closed : reassembleMessages true [] = Some [EClose].
Proof. done. Qed.

(** Out of sync, the first thing sent is a reset request. *)
Lemma reassembleMessages_resets input :
  exists evs, reassembleMessages false input = Some (EReset :: evs).
Proof.
  destruct (reassembleMessages_total false input) as [t Ht].
  rewrite reassembleMessages_unfold in Ht. unfold reassemblePass in Ht.
  rewrite reassembleMessages_unfold. unfold reassemblePass.
  destruct (awaitMarker 0 input) as [evs [rest|]]; [|by eexists].
  destruct (getBytes rest 2) as [[header [|]] in2]; [|by eexists].
  destruct (dispatchHeader header in2) as [|evs1 a' in3]; [by eexists|].
  destruct (reassembleMessages a' in3) as [t'|]; [by eexists|done].
Qed.

(** Once the marker has been seen the loop goes on as if entered in sync. *)
Lemma reassemble_synced input evs rest :
  awaitMarker 0 input = (evs, Some rest) ->
  reassembleMessages false input =
  app (EReset :: evs ++ [EActive true]) <$> reassembleMessages true rest.
Proof.
  intros Ha.
  rewrite (reassembleMessages_unfold false), (reassembleMessages_unfold true).
  unfold reassemblePass. rewrite Ha.
  destruct (getBytes rest 2) as [[header [|]] in2]; [|done].
  destruct (dispatchHeader header in2) as [|evs1 a' in3]; [done|].
  rewrite <- option_fmap_compose. cbn [app].
  destruct (reassembleMessages a' in3); cbn; [|done].
  by rewrite <- !app_assoc.
Qed.

(** C1 (as amended).  Take a byte stream that is a prefix [pre], the 7-byte
    activation marker, a well-formed [55 44] frame (address, CRC-16/XMODEM
    of the payload low byte first, length, payload) with the right CRC, and
    whatever follows ([post]); the timer may fire anywhere in between.  If
    the match counter of the handshake loop is back at zero after [pre]
    (as it is for the empty prefix), the reassembler, started out of sync,
    delivers the Message with that address and payload first, and then what
    it makes of [post]; when the stream ends with the frame it delivers
    exactly that one Message. *)
Theorem marker_then_frame_delivers input pre m data post :
  detectedAfter 0 pre = 0%nat ->
  (length data <= 255)%nat ->
  bytes_of input =
    pre ++ activationHeader ++ inboundFrame m (crcBytes data) data ++ post ->
  delivered <$> reassembleMessages false input =
    (fun evs => MkMessage m data :: delivered evs)
      <$> reassembleMessages true (map Recv post)
  /\ (post = [] ->
      delivered <$> reassembleMessages false input = Some [MkMessage m data]).
Proof.
  intros Hpre Hlen Hbytes.
  assert (delivered <$> reassembleMessages false input =
          (fun evs => MkMessage m data :: delivered evs)
            <$> reassembleMessages true (map Recv post)) as Heq.
  { rewrite delivered_bytes_of, Hbytes.
    rewrite (reassemble_synced _ [] (map Recv (inboundFrame m (crcBytes data) data) ++ map Recv post)).
    - rewrite reassemble_frame by done.
      rewrite crcBytes_accepted, N.eqb_refl. cbn [negb].
      rewrite <- !option_fmap_compose.
      by destruct (reassembleMessages true (map Recv post)).
    - rewrite !map_app, awaitMarker_detectedAfter by (rewrite Hpre; cbn; lia).
      rewrite Hpre. apply awaitMarker_header. }
  split; [done|]. intros ->. by rewrite Heq.
Qed.

Lemma marker_then_frame_delivers_witness :
  delivered <$> reassembleMessages false
    (map Recv (activationHeader ++ inboundFrame scenarioMac (crcBytes hi) hi))
  = Some [MkMessage scenarioMac hi].
Proof.
  apply (marker_then_frame_delivers _ [] scenarioMac hi []);
    [reflexivity | cbn; lia | vm_compute; reflexivity | reflexivity].
Defined.

(** C1 as it was stated fails: with one stray [0x11] before the marker the
    stream still contains the marker followed by the frame, but the match
    counter is not at zero when the marker begins, the marker goes by
    unseen, and nothing is delivered. *)
Lemma marker_after_stray_byte_missed :
  delivered <$> reassembleMessages false
    (map Recv ([x11] ++ activationHeader
                 ++ inboundFrame scenarioMac (crcBytes hi) hi))
  = Some [].
Proof. vm_compute. reflexivity. Qed.

(** C3.  In sync, on a [55 44] frame whose two CRC bytes are not the
    CRC-16/XMODEM of its payload, the reassembler delivers nothing for the
    frame: the first thing it does is clear the flag, the loop is entered
    again out of sync on what follows the frame, and the next thing it does
    is send a reset request. *)
Theorem crc_mismatch_resets m crc data rest :
  length crc = 2%nat ->
  (length data <= 255)%nat ->
  wireCRC crc <> uint16 (CRC.CalculateCRC data) ->
  reassembleMessages true (map Recv (inboundFrame m crc data) ++ rest) =
    cons (EActive false) <$> reassembleMessages false rest
  /\ exists evs,
      reassembleMessages true (map Recv (inboundFrame m crc data) ++ rest) =
        Some (EActive false :: EReset :: evs).
Proof.
  intros Hcrc Hlen Hne.
  assert (reassembleMessages true (map Recv (inboundFrame m crc data) ++ rest) =
          cons (EActive false) <$> reassembleMessages false rest) as Heq.
  { rewrite reassemble_frame by done.
    by rewrite (proj2 (N.eqb_neq _ _) Hne). }
  split; [done|].
  destruct (reassembleMessages_resets rest) as [evs Hevs].
  exists evs. by rewrite Heq, Hevs.
Qed.

(** The frame of the scenario with the last payload byte changed from
    ["i"] to ["j"], the CRC bytes still those of ["hi"]. *)
Lemma crc_mismatch_resets_witness :
  reassembleMessages true
    (map Recv (inboundFrame scenarioMac (crcBytes hi) [x68; x6a]) ++ [])
  = cons (EActive false) <$> reassembleMessages false [].
Proof.
  apply (crc_mismatch_resets scenarioMac (crcBytes hi) [x68; x6a] []);
    [reflexivity | cbn; lia | vm_compute; discriminate].
Defined.

(** ** The size of what is delivered *)

Lemma inboundMessage_size input evs active' rest m :
  inboundMessage input = Continue evs active' rest ->
  EMsg m ∈ evs -> (length (Data m) <= 255)%nat.
Proof.
  unfold inboundMessage.
  destruct (getBytes input 6) as [[mac ok1] in1].
  destruct (getBytes in1 2) as [[crc ok2] in2].
  destruct (recv in2) as [[size in3]|]; [|done].
  destruct (getBytes in3 _) as [[data [|]] in4] eqn:E4; [|done].
  apply getBytes_length in E4 as [E4 _].
  pose proof (Byte.to_N_bounded size).
  case_match; intros [= <- <- <-] Hin; apply list_elem_of_singleton in Hin;
    simplify_eq. cbn. lia.
Qed.

Lemma dispatchHeader_size header input evs active' rest m :
  dispatchHeader header input = Continue evs active' rest ->
  EMsg m ∈ evs -> (length (Data m) <= 255)%nat.
Proof.
  unfold dispatchHeader. repeat case_decide.
  - apply inboundMessage_size.
  - intros [= <- <- <-] Hin. by apply list_elem_of_singleton in Hin.
  - intros [= <- <- <-] Hin. by apply list_elem_of_singleton in Hin.
Qed.

Lemma awaitMarker_no_msg detected input m :
  EMsg m ∉ (awaitMarker detected input).1.
Proof.
  intros Hin. pose proof (awaitMarker_delivered detected input) as Hd.
  assert (m ∈ delivered (awaitMarker detected input).1) as Hm.
  { apply list_elem_of_omap. by exists (EMsg m). }
  rewrite Hd in Hm. by apply not_elem_of_nil in Hm.
Qed.

(** C9 (as amended).  Whatever the bytes and however the loop is entered,
    every Message the reassembler delivers has a payload of at most 255
    bytes, the most the length byte of a frame can say. *)
Theorem delivered_payload_at_most_255 active input evs m :
  reassembleMessages active input = Some evs ->
  EMsg m ∈ evs ->
  (length (Data m) <= 255)%nat.
Proof.
  remember (length input) as n eqn:Hn.
  revert active input evs Hn. induction (lt_wf n) as [n _ IH].
  intros active input evs -> Hrun Hin.
  rewrite reassembleMessages_unfold in Hrun. unfold reassemblePass in Hrun.
  assert (forall evs0 in1, (length in1 <= length input)%nat ->
    EMsg m ∉ evs0 ->
    match getBytes in1 2 with
    | (_, false, _) => Some (evs0 ++ [EClose])
    | (header, true, in2) =>
      match dispatchHeader header in2 with
      | Return => Some (evs0 ++ [EClose])
      | Continue evs1 active' in3 =>
        app (evs0 ++ evs1) <$> reassembleMessages active' in3
      end
    end = Some evs -> (length (Data m) <= 255)%nat) as Hbody.
  { intros evs0 in1 Hle Hno Hres.
    assert (EMsg m ∉ evs0 ++ [EClose]) as Hno'.
    { rewrite elem_of_app, list_elem_of_singleton. by intros [|]. }
    destruct (getBytes in1 2) as [[header [|]] in2] eqn:E2;
      [|by simplify_eq].
    apply getBytes_length in E2 as [_ ?].
    destruct (dispatchHeader header in2) as [|evs1 a' in3] eqn:Ed;
      [by simplify_eq|].
    destruct (reassembleMessages a' in3) as [t|] eqn:Et; [|done].
    cbn in Hres. simplify_eq.
    rewrite !elem_of_app in Hin. destruct Hin as [[Hin|Hin]|Hin]; [done| |].
    - by eapply dispatchHeader_size.
    - pose proof (dispatchHeader_length _ _ _ _ _ Ed).
      eapply (IH (length in3)); [lia|done|done|done]. }
  destruct active.
  - eapply Hbody; [|apply not_elem_of_nil|done]. lia.
  - pose proof (awaitMarker_no_msg 0 input m) as Hno.
    destruct (awaitMarker 0 input) as [evs' [rest|]] eqn:Ea; cbn [fst] in Hno.
    + eapply (Hbody (EReset :: evs' ++ [EActive true]) rest);
        [by eapply awaitMarker_length| |done].
      rewrite elem_of_cons, elem_of_app, list_elem_of_singleton.
      by intros [|[|]].
    + simplify_eq.
      rewrite elem_of_app, elem_of_cons, list_elem_of_singleton in Hin.
      by destruct Hin as [[|]|].
Qed.

Lemma delivered_payload_at_most_255_witness :
  reassembleMessages true (map Recv (inboundFrame scenarioMac (crcBytes hi) hi))
    = Some [EMsg (MkMessage scenarioMac hi); EClose]
  /\ (length (Data (MkMessage scenarioMac hi)) <= 255)%nat.
Proof.
  split; [vm_compute; reflexivity|].
  apply (delivered_payload_at_most_255 true
           (map Recv (inboundFrame scenarioMac (crcBytes hi) hi))
           [EMsg (MkMessage scenarioMac hi); EClose]);
    [vm_compute; reflexivity | apply list_elem_of_here].
Defined.

(** C9 as it was stated fails: a frame that says 251 in its length byte
    and carries the CRC of its 251 payload bytes is accepted, and the
    Message delivered has 251 bytes of payload. *)
Lemma delivered_payload_of_251_bytes :
  let data := repeat x00 251 in
  reassembleMessages true (map Recv (inboundFrame scenarioMac (crcBytes data) data))
    = Some [EMsg (MkMessage scenarioMac data); EClose]
  /\ length data = 251%nat.
Proof. vm_compute. split; reflexivity. Qed.

(** ** The link writer *)

Lemma sendFrame_small msg conn :
  (length (Data msg) <= 250)%nat ->
  sendFrame msg conn = Ok tt (conn ++ outboundFrame msg).
Proof.
  intros Hlen. unfold sendFrame, bind, assureWritten, outboundFrame.
  rewrite (proj2 (Nat.ltb_ge _ _) Hlen). cbn [ret].
  by rewrite <- !app_assoc.
Qed.

Lemma sendFrame_large msg conn :
  (250 < length (Data msg))%nat -> sendFrame msg conn = Fatal conn.
Proof.
  intros Hlen. unfold sendFrame, bind.
  by rewrite (proj2 (Nat.ltb_lt _ _) Hlen).
Qed.

(** C2 (as amended).  For a Message with a payload of at most 250 bytes the
    writer puts out header [22 11], the address, the CRC-16/XMODEM of the
    payload low byte first, the length and the payload.  What follows the
    two header bytes, read by the body of the reassembler's [55 44] case,
    gives back the same address and the same payload, the CRC being
    accepted; so does the whole frame once its header is [55 44], the
    header of the inbound direction. *)
Theorem outbound_frame_roundtrip msg conn rest :
  (length (Data msg) <= 250)%nat ->
  sendFrame msg conn = Ok tt (conn ++ outboundFrame msg)
  /\ take 2 (outboundFrame msg) = sendMessage
  /\ inboundMessage (map Recv (drop 2 (outboundFrame msg)) ++ rest) =
       Continue [EMsg msg] true rest
  /\ reassembleMessages true
       (map Recv ([x55; x44] ++ drop 2 (outboundFrame msg)) ++ rest) =
       cons (EMsg msg) <$> reassembleMessages true rest.
Proof.
  intros Hlen. split; [by apply sendFrame_small|]. split; [done|].
  destruct msg as [m data]. cbn [Data Mac] in *.
  change (drop 2 (outboundFrame (MkMessage m data)))
    with (mac_slice m ++ crcBytes data ++ [uint8 (N.of_nat (length data))] ++ data).
  split.
  - rewrite inboundMessage_frame by (done || lia).
    by rewrite crcBytes_accepted, N.eqb_refl.
  - change ([x55; x44] ++ _) with (inboundFrame m (crcBytes data) data).
    rewrite reassemble_frame by (done || lia).
    by rewrite crcBytes_accepted, N.eqb_refl.
Qed.

Lemma outbound_frame_roundtrip_witness :
  reassembleMessages true
    (map Recv ([x55; x44] ++ drop 2 (outboundFrame (MkMessage scenarioMac hi))) ++ [])
  = cons (EMsg (MkMessage scenarioMac hi)) <$> reassembleMessages true [].
Proof.
  apply (outbound_frame_roundtrip (MkMessage scenarioMac hi) [] []).
  cbn. lia.
Defined.

(** C2 as it was stated fails: the frame as the writer sends it begins with
    [22 11], which is no header the reassembler knows; in sync it takes the
    frame for a loss of framing and delivers nothing. *)
Lemma outbound_frame_not_decoded :
  sendFrame (MkMessage scenarioMac hi) [] =
    Ok tt (outboundFrame (MkMessage scenarioMac hi))
  /\ reassembleMessages true (map Recv (outboundFrame (MkMessage scenarioMac hi))) =
       Some [EActive false; EReset; EClose].
Proof. vm_compute. split; reflexivity. Qed.

(** C5.  In sync, when the pass receives a Message from the Outbox: with a
    payload of more than 250 bytes the writer stops in [log.Fatal] with the
    connection as it was, not a byte of the frame written; with a payload of
    at most 250 bytes the whole frame is written and the Message is off the
    Outbox. *)
Theorem oversized_send_is_fatal b ch msg rest :
  active b = true ->
  Outbox ch = msg :: rest ->
  writeBytesPass SelBox b ch =
  Some (if (250 <? length (Data msg))%nat
        then Fatal (connection b)
        else Ok (MkChans rest (OutboxClosed ch) (resetReq ch) (sendPeersReq ch))
                (connection b ++ outboundFrame msg)).
Proof.
  intros Hact Hbox. unfold writeBytesPass. rewrite Hact, Hbox. cbn [negb].
  unfold bind at 1. destruct (250 <? length (Data msg))%nat eqn:Hlen.
  - apply Nat.ltb_lt in Hlen. by rewrite sendFrame_large.
  - apply Nat.ltb_ge in Hlen. by rewrite sendFrame_small.
Qed.

Lemma oversized_send_is_fatal_witness :
  writeBytesPass SelBox (MkBridge [x42] true [])
    (MkChans [MkMessage scenarioMac (repeat x00 251)] false 0 0)
  = Some (Fatal [x42]).
Proof.
  apply (oversized_send_is_fatal (MkBridge [x42] true [])
           (MkChans [MkMessage scenarioMac (repeat x00 251)] false 0 0)
           (MkMessage scenarioMac (repeat x00 251)) []);
    reflexivity.
Defined.

(** ** Runs of the writer *)

(** A pass that reads the flag as not set leaves the Outbox alone, writes
    reset frames only, and does not end in [log.Fatal]. *)
Lemma pass_out_of_sync c b ch o :
  active b = false ->
  writeBytesPass c b ch = Some o ->
  match o with
  | Ok ch' conn' =>
    Outbox ch' = Outbox ch
    /\ exists k, conn' = connection b ++ concat (replicate k resetMessage)
  | Fatal _ => False
  end.
Proof.
  intros Hact. unfold writeBytesPass. rewrite Hact. cbn [negb].
  destruct c; try done.
  - destruct (resetReq ch) as [|n]; [done|]. intros [= <-]. cbn.
    split; [done|]. by exists 1%nat.
  - intros [= <-]. split; [done|]. exists 0%nat. cbn. by rewrite app_nil_r.
Qed.

(** A pass in sync that takes a Message of legal size off the Outbox. *)
Lemma pass_in_sync_box b ch m q :
  active b = true ->
  Outbox ch = m :: q ->
  (length (Data m) <= 250)%nat ->
  writeBytesPass SelBox b ch =
  Some (Ok (MkChans q (OutboxClosed ch) (resetReq ch) (sendPeersReq ch))
           (connection b ++ outboundFrame m)).
Proof.
  intros Hact Hbox Hlen. unfold writeBytesPass. rewrite Hact, Hbox. cbn [negb].
  unfold bind at 1. by rewrite sendFrame_small.
Qed.

(** ** The peer table *)

(** C6.  What [AddPeer] does, against what is claimed of it.  The table is
    never changed: [append] is handed no peer, and a call on the empty table
    returns [nil] with the table still empty.  The error is returned from
    20 entries on, not from 19: on a table of 19 the call returns [nil]. *)
Theorem AddPeer_appends_nothing :
  (forall b m c, peers (AddPeer b m c).1 = peers b)
  /\ (forall b m c,
        (AddPeer b m c).2 = Some ErrPeerTableFull <-> (20 <= length (peers b))%nat)
  /\ AddPeer (MkBridge [] false []) scenarioMac x01 = (MkBridge [] false [], None)
  /\ (AddPeer (MkBridge [] false (replicate 19 (MkPeer scenarioMac x01)))
              scenarioMac x01).2 = None.
Proof.
  split; [|split; [|split; reflexivity]].
  - intros b m c. unfold AddPeer. case_match; [done|].
    cbn. by rewrite app_nil_r.
  - intros b m c. unfold AddPeer.
    destruct (20 <=? length (peers b))%nat eqn:E; cbn.
    + apply Nat.leb_le in E. done.
    + apply Nat.leb_gt in E. split; [done|lia].
Qed.

Lemma findPeer_Some m ps i j :
  findPeer m ps i = Some j ->
  exists k p, j = (i + k)%nat /\ ps !! k = Some p /\ mac p = m.
Proof.
  revert i. induction ps as [|p ps IH]; intros i; cbn [findPeer]; [done|].
  case_decide as Hp.
  - intros [= <-]. exists 0%nat, p.
    split; [lia|]. split; [done|]. by apply mac_slice_inj.
  - intros Hf. destruct (IH _ Hf) as (k & q & -> & Hk & Hq).
    exists (S k), q. split; [lia|]. done.
Qed.

Lemma findPeer_None m ps i :
  findPeer m ps i = None -> forall p, p ∈ ps -> mac p <> m.
Proof.
  revert i. induction ps as [|q ps IH]; intros i; cbn [findPeer].
  - intros _ p Hp. by apply not_elem_of_nil in Hp.
  - case_decide as Hq; [done|]. intros Hf p Hp.
    apply elem_of_cons in Hp as [->|Hp]; [|by eapply IH].
    intros <-. done.
Qed.

(** C7.  When some peer of the table has the address, [RemovePeer] puts the
    last entry in the place of a matching one and cuts the table by one: one
    peer less remains and every peer with another address is still there.
    When no peer has the address the bridge is left as it was. *)
Theorem RemovePeer_swap_truncate b m :
  ((exists p, p ∈ peers b /\ mac p = m) ->
     S (length (peers (RemovePeer b m))) = length (peers b)
     /\ (forall q, q ∈ peers b -> mac q <> m -> q ∈ peers (RemovePeer b m))
     /\ exists i p lastPeer,
          peers b !! i = Some p /\ mac p = m
          /\ last (peers b) = Some lastPeer
          /\ peers (RemovePeer b m) =
               take (length (peers b) - 1) (<[i := lastPeer]> (peers b)))
  /\ ((forall p, p ∈ peers b -> mac p <> m) -> RemovePeer b m = b).
Proof.
  unfold RemovePeer. split.
  - intros (p0 & Hin0 & Hm0).
    destruct (findPeer m (peers b) 0) as [j|] eqn:Hf;
      [|by destruct (findPeer_None _ _ _ Hf p0 Hin0)].
    destruct (findPeer_Some _ _ _ _ Hf) as (k & p & -> & Hk & Hp).
    cbn [Nat.add].
    pose proof (lookup_lt_Some _ _ _ Hk) as Hlt.
    destruct (peers b !! (length (peers b) - 1)%nat) as [lastPeer|] eqn:Hl;
      [|apply lookup_ge_None in Hl; lia].
    cbn [peers]. split; [|split].
    + rewrite length_take, length_insert. lia.
    + intros q Hq Hne. apply list_elem_of_lookup in Hq as [j Hj].
      pose proof (lookup_lt_Some _ _ _ Hj) as Hjlt.
      assert (j <> k) as Hjk by (intros ->; simplify_eq; done).
      apply list_elem_of_lookup.
      destruct (decide (j = length (peers b) - 1)%nat) as [->|Hlast].
      * exists k. rewrite lookup_take_lt by lia.
        rewrite list_lookup_insert_eq by lia. congruence.
      * exists j. rewrite lookup_take_lt by lia.
        by rewrite list_lookup_insert_ne.
    + exists k, p, lastPeer. split; [done|]. split; [done|]. split; [|done].
      by rewrite last_lookup, Nat.sub_1_r in *.
  - intros Hno. destruct (findPeer m (peers b) 0) as [j|] eqn:Hf; [|done].
    destruct (findPeer_Some _ _ _ _ Hf) as (k & p & -> & Hk & Hp).
    destruct (Hno p); [|done]. apply list_elem_of_lookup. by exists k.
Qed.

Lemma RemovePeer_swap_truncate_witness :
  S (length (peers (RemovePeer
                      (MkBridge [] true
                         [MkPeer scenarioMac x01;
                          MkPeer (MkMac x01 x02 x03 x04 x05 x06) x02;
                          MkPeer (MkMac x0a x0b x0c x0d x0e x0f) x03])
                      scenarioMac))) = 3%nat
  /\ RemovePeer (MkBridge [] true [MkPeer scenarioMac x01])
                (MkMac x01 x02 x03 x04 x05 x06)
     = MkBridge [] true [MkPeer scenarioMac x01].
Proof.
  split.
  - refine (proj1 (proj1 (RemovePeer_swap_truncate
                            (MkBridge [] true
                               [MkPeer scenarioMac x01;
                                MkPeer (MkMac x01 x02 x03 x04 x05 x06) x02;
                                MkPeer (MkMac x0a x0b x0c x0d x0e x0f) x03])
                            scenarioMac) _)).
    exists (MkPeer scenarioMac x01).
    split; [apply list_elem_of_here|reflexivity].
  - apply (proj2 (RemovePeer_swap_truncate
                    (MkBridge [] true [MkPeer scenarioMac x01])
                    (MkMac x01 x02 x03 x04 x05 x06))).
    intros p Hp. apply list_elem_of_singleton in Hp as ->. discriminate.
Defined.

(** ** WaitForConnected *)

(** C8.  What [WaitForConnected] does, against what is claimed of it.  If
    the time allowed has not gone by when the loop condition is first
    tested, [end.Before(time.Now())] is false and the call returns at once,
    without a single sleep, whether the bridge is connected or not. *)
Theorem WaitForConnected_returns_at_once b maxWait t0 t1 clock :
  (t1 <= t0 + maxWait)%Z ->
  WaitForConnected b maxWait (t0 :: t1 :: clock) = Some 0%nat.
Proof.
  intros Hle. cbn [WaitForConnected waitLoop].
  by rewrite (proj2 (Z.ltb_ge _ _) Hle).
Qed.

(** Not connected, ten seconds allowed, the condition tested a microsecond
    after the call. *)
Lemma WaitForConnected_returns_at_once_witness :
  WaitForConnected (MkBridge [] false []) 10000000000 [0; 1000; 10001000]%Z
  = Some 0%nat.
Proof.
  apply (WaitForConnected_returns_at_once (MkBridge [] false []) 10000000000 0 1000).
  lia.
Defined.

(** ** More on the channel *)

Lemma recv_bytes input :
  match recv input with
  | Some (b, rest) => bytes_of input = b :: bytes_of rest
  | None => bytes_of input = []
  end.
Proof.
  induction input as [|[b|] input IH]; [done|done|].
  rewrite bytes_of_tick. apply IH.
Qed.

(** X1.  [getBytes] succeeds exactly when the channel still delivers [len]
    bytes before it is closed, however the timer fires in between: it then
    returns these bytes and leaves the bytes after them.  When fewer are
    left it returns no slice.  For [len = 0] it succeeds on any channel, a
    closed one too. *)
Theorem getBytes_takes_len input len :
  ((len <= length (bytes_of input))%nat ->
     exists rest,
       getBytes input len = (take len (bytes_of input), true, rest)
       /\ bytes_of rest = drop len (bytes_of input))
  /\ ((length (bytes_of input) < len)%nat ->
        getBytes input len = ([], false, [])).
Proof.
  revert input. induction len as [|len IH]; intros input.
  - split; [|lia]. intros _. exists input. by rewrite take_0, drop_0.
  - cbn [getBytes]. pose proof (recv_bytes input) as Hr.
    destruct (recv input) as [[b r]|]; rewrite Hr; cbn [length].
    + destruct (IH r) as [Hok Hfail]. split; intros Hlen.
      * destruct Hok as (rest & -> & Hrest); [lia|]. by exists rest.
      * by rewrite Hfail by lia.
    + split; [lia|done].
Qed.

Lemma getBytes_takes_len_witness :
  exists rest,
    getBytes [Tick; Recv x55; Tick; Recv x44; Recv xaa] 2 = (take 2 [x55; x44; xaa], true, rest)
    /\ bytes_of rest = drop 2 [x55; x44; xaa].
Proof.
  apply (proj1 (getBytes_takes_len [Tick; Recv x55; Tick; Recv x44; Recv xaa] 2)).
  cbn. lia.
Defined.

(** ** The phases of the reassembler *)

Lemma awaitMarker_resets detected input :
  exists k, (awaitMarker detected input).1 = replicate k EReset.
Proof.
  revert detected. induction input as [|[b|] input IH]; intros d;
    rewrite awaitMarker_eq; destruct (_ <=? d)%nat; try by exists 0%nat.
  - case_decide; apply IH.
  - destruct (IH d) as [k Hk]. destruct (awaitMarker d input) as [evs r].
    exists (S k). cbn in *. by rewrite Hk.
Qed.

Lemma accepts_scanning k evs :
  accepts Scanning (replicate k EReset ++ evs) = accepts Scanning evs.
Proof. induction k as [|k IH]; [done|]. apply IH. Qed.

Lemma dispatchHeader_events header input evs active' rest :
  dispatchHeader header input = Continue evs active' rest ->
  (evs = [EActive false] /\ active' = false)
  \/ (evs = [ESendPeers] /\ active' = true)
  \/ (exists m, evs = [EMsg m] /\ active' = true /\ (length (Data m) <= 255)%nat).
Proof.
  intros Hd.
  assert (forall m, EMsg m ∈ evs -> (length (Data m) <= 255)%nat) as Hsize
    by (intros m; by eapply dispatchHeader_size).
  revert Hd. unfold dispatchHeader, inboundMessage.
  repeat case_decide; try (intros [= <- <- <-]; by eauto).
  destruct (getBytes input 6) as [[mac ok1] in1].
  destruct (getBytes in1 2) as [[crc ok2] in2].
  destruct (recv in2) as [[size in3]|]; [|done].
  destruct (getBytes in3 _) as [[data [|]] in4]; [|done].
  case_match; intros [= <- <- <-]; [by left|].
  right; right. eexists. split; [done|]. split; [done|].
  apply Hsize, list_elem_of_here.
Qed.

Lemma reassemblePass_accepts again active input evs :
  (forall a rest t, (length rest < length input)%nat ->
     again a rest = Some t -> accepts (entryPhase a) t = true) ->
  reassemblePass again active input = Some evs ->
  accepts (entryPhase active) evs = true.
Proof.
  intros Hag. unfold reassemblePass.
  assert (forall evs0 in1, (length in1 <= length input)%nat ->
    (forall t, accepts (entryPhase active) (evs0 ++ t) = accepts InSync t) ->
    match getBytes in1 2 with
    | (_, false, _) => Some (evs0 ++ [EClose])
    | (header, true, in2) =>
      match dispatchHeader header in2 with
      | Return => Some (evs0 ++ [EClose])
      | Continue evs1 active' in3 => app (evs0 ++ evs1) <$> again active' in3
      end
    end = Some evs -> accepts (entryPhase active) evs = true) as Hbody.
  { intros evs0 in1 Hle Hev0.
    destruct (getBytes in1 2) as [[header [|]] in2] eqn:E2;
      [|intros [= <-]; by rewrite Hev0].
    apply getBytes_length in E2 as [_ ?].
    destruct (dispatchHeader header in2) as [|evs1 a' in3] eqn:Ed;
      [intros [= <-]; by rewrite Hev0|].
    pose proof (dispatchHeader_length _ _ _ _ _ Ed).
    destruct (again a' in3) as [t|] eqn:Et; [|done].
    intros [= <-]. rewrite <- app_assoc, Hev0.
    apply Hag in Et; [|lia].
    destruct (dispatchHeader_events _ _ _ _ _ Ed)
      as [[-> ->]|[[-> ->]|(m & -> & -> & Hm)]]; cbn; [done..|].
    by rewrite (proj2 (Nat.leb_le _ _) Hm). }
  destruct active; [by apply Hbody|].
  destruct (awaitMarker_resets 0 input) as [k Hk].
  destruct (awaitMarker 0 input) as [evs' [rest|]] eqn:Ea; cbn [fst] in Hk;
    subst evs'.
  - apply Hbody; [by eapply awaitMarker_length|].
    intros t. cbn. by rewrite <- app_assoc, accepts_scanning.
  - intros [= <-]. cbn. by rewrite accepts_scanning.
Qed.

Lemma reassemble_accepts active input evs :
  reassembleMessages active input = Some evs ->
  accepts (entryPhase active) evs = true.
Proof.
  remember (length input) as n eqn:Hn.
  revert active input evs Hn. induction (lt_wf n) as [n _ IH].
  intros active input evs ->. rewrite reassembleMessages_unfold.
  apply reassemblePass_accepts. intros a rest t Hlt. by eapply IH.
Qed.

Lemma accepts_closed evs : accepts Closed evs = true -> evs = [].
Proof. by destruct evs. Qed.

Lemma phaseStep_closed ph e :
  phaseStep ph e = Some Closed <-> ph <> NeedReset /\ ph <> Closed /\ e = EClose.
Proof.
  destruct ph, e as [| |m|[|]|]; cbn; try case_match; intuition congruence.
Qed.

Lemma accepts_ends ph evs :
  ph <> Closed -> accepts ph evs = true ->
  exists evs', evs = evs' ++ [EClose] /\ EClose ∉ evs'.
Proof.
  revert ph. induction evs as [|e evs IH]; intros ph Hph; cbn [accepts].
  - by destruct ph.
  - destruct (phaseStep ph e) as [ph'|] eqn:Hs; [|done]. intros Hacc.
    assert (ph' = Closed \/ ph' <> Closed) as [->|Hne]
      by (destruct ph'; (by left) || (by right)).
    + apply accepts_closed in Hacc as ->.
      apply phaseStep_closed in Hs as (_ & _ & ->).
      exists []. split; [done|]. apply not_elem_of_nil.
    + destruct (IH ph' Hne Hacc) as (evs' & -> & Hno).
      exists (e :: evs'). split; [done|].
      rewrite not_elem_of_cons. split; [|done].
      intros <-. destruct ph; cbn in Hs; simplify_eq.
Qed.

(** X2.  Every run of the reassembler goes by the phases: out of sync the
    first thing it does is send a reset request, and up to setting the flag
    it does nothing but send reset requests; Messages (of at most 255
    bytes) and peer requests are sent in sync only; from in sync it leaves
    by clearing the flag, and then a reset request comes first again.  The
    Inbox is closed once, and that is the last thing done. *)
Theorem reassembler_follows_phases active input evs :
  reassembleMessages active input = Some evs ->
  accepts (entryPhase active) evs = true
  /\ exists evs', evs = evs' ++ [EClose] /\ EClose ∉ evs'.
Proof.
  intros Hrun. pose proof (reassemble_accepts _ _ _ Hrun) as Hacc.
  split; [done|]. apply (accepts_ends (entryPhase active)); [|done].
  by destruct active.
Qed.

Lemma reassembler_follows_phases_witness :
  accepts (entryPhase false)
    [EReset; EReset; EActive true; EMsg (MkMessage scenarioMac hi);
     ESendPeers; EActive false; EReset; EReset; EClose] = true
  /\ exists evs',
      [EReset; EReset; EActive true; EMsg (MkMessage scenarioMac hi);
       ESendPeers; EActive false; EReset; EReset; EClose] = evs' ++ [EClose]
      /\ EClose ∉ evs'.
Proof.
  apply (reassembler_follows_phases false
           (Tick :: map Recv (activationHeader
                                ++ inboundFrame scenarioMac (crcBytes hi) hi
                                ++ [x44; x33; x00; x00; x11])
                 ++ [Tick])).
  vm_compute. reflexivity.
Defined.

(** X3.  Two channels that deliver the same bytes have the same Messages
    delivered, in the same order, whenever the timer of the handshake fires
    in between. *)
Theorem delivery_ignores_timing active input1 input2 :
  bytes_of input1 = bytes_of input2 ->
  delivered <$> reassembleMessages active input1 =
  delivered <$> reassembleMessages active input2.
Proof.
  intros Hbytes.
  rewrite (delivered_bytes_of active input1), (delivered_bytes_of active input2).
  by rewrite Hbytes.
Qed.

Lemma delivery_ignores_timing_witness :
  delivered <$> reassembleMessages false
    (Tick :: Tick :: map Recv (activationHeader ++ inboundFrame scenarioMac (crcBytes hi) hi))
  = delivered <$> reassembleMessages false
      (map Recv activationHeader ++ Tick
         :: map Recv (inboundFrame scenarioMac (crcBytes hi) hi)).
Proof.
  apply (delivery_ignores_timing false). vm_compute. reflexivity.
Defined.

(** ** The handshake *)

Lemma awaitMarker_missing_byte j detected input :
  (detected <= j < length activationHeader)%nat ->
  nth j activationHeader x00 ∉ bytes_of input ->
  awaitMarker detected input = (replicate (ticks input) EReset, None).
Proof.
  revert detected. induction input as [|[b|] input IH]; intros d Hd Hno;
    rewrite awaitMarker_eq, (proj2 (Nat.leb_gt _ _)) by lia.
  - done.
  - rewrite bytes_of_recv, not_elem_of_cons in Hno. destruct Hno as [Hb Hno].
    cbn [ticks]. case_decide as Hbd.
    + apply IH; [|done]. destruct (decide (d = j)) as [->|]; [done|lia].
    + apply IH; [lia|done].
  - rewrite bytes_of_tick in Hno. by rewrite (IH d).
Qed.

(** X4.  As long as one of the seven bytes of the marker has not come by,
    the reassembler stays out of sync: it sends its reset request, one more
    each time the timer fires, never sets the flag and delivers nothing. *)
Theorem no_marker_no_sync b input :
  b ∈ activationHeader ->
  b ∉ bytes_of input ->
  reassembleMessages false input =
  Some (EReset :: replicate (ticks input) EReset ++ [EClose]).
Proof.
  intros Hb Hno. apply list_elem_of_lookup in Hb as [j Hj].
  pose proof (lookup_lt_Some _ _ _ Hj) as Hlt.
  rewrite reassembleMessages_unfold. unfold reassemblePass.
  rewrite (awaitMarker_missing_byte j); [done|lia|].
  by rewrite (nth_lookup_Some _ _ _ _ Hj).
Qed.

Lemma no_marker_no_sync_witness :
  reassembleMessages false
    (map Recv [x11; x22; x33; x44; x55; x66] ++ Tick
       :: map Recv (inboundFrame scenarioMac (crcBytes hi) hi) ++ [Tick])
  = Some (EReset :: replicate 2 EReset ++ [EClose]).
Proof.
  apply (no_marker_no_sync x77).
  - apply list_elem_of_In. cbn. tauto.
  - vm_compute. intros H. repeat (apply elem_of_cons in H as [H|H]; [discriminate|]).
    by apply not_elem_of_nil in H.
Defined.

Lemma detectedAfter_without_first pre :
  x11 ∉ pre -> detectedAfter 0 pre = 0%nat.
Proof.
  induction pre as [|b pre IH]; [done|].
  rewrite not_elem_of_cons. intros [Hb Hpre].
  rewrite detectedAfter_eq. cbn -[detectedAfter]. rewrite decide_False by done.
  by apply IH.
Qed.

(** X5.  Bytes before the marker are skipped as long as none of them is
    [0x11], the first byte of the marker: after them and the marker the
    reassembler has sent its reset request, has set the flag, and goes on
    in sync with what follows the marker. *)
Theorem marker_after_garbage_syncs pre rest :
  x11 ∉ pre ->
  reassembleMessages false (map Recv (pre ++ activationHeader) ++ rest) =
  (fun evs => EReset :: EActive true :: evs) <$> reassembleMessages true rest.
Proof.
  intros Hpre. apply detectedAfter_without_first in Hpre.
  rewrite (reassemble_synced _ [] rest).
  - by destruct (reassembleMessages true rest).
  - rewrite map_app, <- app_assoc.
    rewrite awaitMarker_detectedAfter by (rewrite Hpre; cbn; lia).
    rewrite Hpre. apply awaitMarker_header.
Qed.

Lemma marker_after_garbage_syncs_witness :
  reassembleMessages false (map Recv ([x00; x77; x22] ++ activationHeader) ++ [])
  = (fun evs => EReset :: EActive true :: evs) <$> reassembleMessages true [].
Proof.
  apply (marker_after_garbage_syncs [x00; x77; x22] []).
  intros H. repeat (apply elem_of_cons in H as [H|H]; [discriminate|]).
  by apply not_elem_of_nil in H.
Defined.

(** ** Headers and frames that are not what they should be *)

(** X6.  In sync, two bytes that are neither [55 44] nor [44 33] are taken
    off the channel and the flag is cleared; the search for the marker
    starts behind them.  So the marker itself, coming in while in sync, is
    not seen: its first two bytes go as the header. *)
Theorem unknown_header_desyncs h0 h1 rest :
  ~ (h0 = x55 /\ h1 = x44) ->
  ~ (h0 = x44 /\ h1 = x33) ->
  reassembleMessages true (Recv h0 :: Recv h1 :: rest) =
  cons (EActive false) <$> reassembleMessages false rest.
Proof.
  intros Hmsg Hpeers. rewrite reassembleMessages_unfold.
  unfold reassemblePass. cbn [getBytes recv].
  unfold dispatchHeader. cbn [nth].
  by rewrite !decide_False by done.
Qed.

Lemma unknown_header_desyncs_witness :
  reassembleMessages true (map Recv activationHeader)
  = Some [EActive false; EReset; EClose].
Proof.
  change (reassembleMessages true (map Recv activationHeader))
    with (reassembleMessages true
            (Recv x11 :: Recv x22 :: map Recv [x33; x44; x55; x66; x77])).
  rewrite (unknown_header_desyncs x11 x22); [reflexivity | |];
    intros [? ?]; discriminate.
Defined.

Lemma getBytes_short bs n :
  (length bs < n)%nat -> getBytes (map Recv bs) n = ([], false, []).
Proof.
  revert bs. induction n as [|n IH]; intros [|b bs] Hlen; cbn in *;
    [lia..|done|].
  by rewrite IH by lia.
Qed.

(** The body of the [55 44] case on a channel that is closed before the
    frame is complete. *)
Lemma inboundMessage_short bs :
  (length bs < 9)%nat
  \/ (exists size, bs !! 8%nat = Some size
                   /\ (length bs < 9 + N.to_nat (Byte.to_N size))%nat) ->
  inboundMessage (map Recv bs) = Return.
Proof.
  intros H. unfold inboundMessage.
  destruct bs as [|b0 [|b1 [|b2 [|b3 [|b4 [|b5 [|b6 [|b7 [|b8 tl]]]]]]]]];
    try done.
  destruct H as [H|(size & [= <-] & H)]; [cbn in H; lia|].
  cbn [map getBytes recv]. rewrite getBytes_short; [done|].
  cbn [length] in H. lia.
Qed.

(** X7.  In sync, when the channel is closed anywhere inside a [55 44]
    frame, the header included, the reassembler returns and closes the
    Inbox: nothing of the frame is delivered and no reset is asked for. *)
Theorem truncated_frame_closes m crc data k :
  length crc = 2%nat ->
  (length data <= 255)%nat ->
  (k < length (inboundFrame m crc data))%nat ->
  reassembleMessages true (map Recv (take k (inboundFrame m crc data))) =
  Some [EClose].
Proof.
  intros Hcrc Hlen Hk.
  destruct crc as [|c0 [|c1 [|]]]; try done.
  destruct k as [|[|k]]; [done..|].
  rewrite reassembleMessages_unfold. unfold reassemblePass, inboundFrame.
  cbn [app take map getBytes recv].
  unfold dispatchHeader. cbn [nth]. rewrite decide_True by done.
  rewrite inboundMessage_short; [done|].
  unfold inboundFrame in Hk. cbn [app length mac_slice] in Hk |- *.
  rewrite length_take.
  destruct (decide (k < 9)%nat) as [Hk9|Hk9]; [left; cbn [length]; lia|].
  right. exists (uint8 (N.of_nat (length data))).
  rewrite uint8_length by done. split; [|cbn [length]; lia].
  rewrite lookup_take_lt by lia. done.
Qed.

Lemma truncated_frame_closes_witness :
  reassembleMessages true
    (map Recv (take 12 (inboundFrame scenarioMac (crcBytes hi) hi)))
  = Some [EClose].
Proof.
  apply (truncated_frame_closes scenarioMac (crcBytes hi) hi 12);
    [reflexivity | cbn; lia | cbn; lia].
Defined.

(** ** What the writer leaves on the wire *)

Lemma sendPeerTable_frames ps conn :
  sendPeerTable ps conn = Ok tt (conn ++ concat (map peerFrame ps)).
Proof.
  revert conn. induction ps as [|p ps IH]; intros conn; cbn [sendPeerTable].
  - cbn. by rewrite app_nil_r.
  - unfold bind, assureWritten. rewrite IH. cbn [map concat].
    unfold peerFrame. by rewrite <- !app_assoc.
Qed.

Lemma isFrame_peers ps : Forall isFrame (map peerFrame ps).
Proof.
  apply Forall_forall. intros f Hf.
  apply list_elem_of_fmap in Hf as (p & -> & _). right; right. by exists p.
Qed.

(** X8.  In sync, the pass that receives a peer request writes one [33 22]
    frame for each peer of the table, in the order of the table, each of
    nine bytes: header, address, channel.  With an empty table it writes
    nothing. *)
Theorem peer_push_frame_per_peer b ch n :
  active b = true ->
  sendPeersReq ch = S n ->
  writeBytesPass SelSendPeers b ch =
    Some (Ok (MkChans (Outbox ch) (OutboxClosed ch) (resetReq ch) n)
             (connection b ++ concat (map peerFrame (peers b))))
  /\ length (concat (map peerFrame (peers b))) = (9 * length (peers b))%nat.
Proof.
  intros Hact Hreq. split.
  - unfold writeBytesPass. rewrite Hact, Hreq. cbn [negb].
    unfold bind at 1. by rewrite sendPeerTable_frames.
  - induction (peers b) as [|p ps IH]; [done|].
    cbn [map concat]. rewrite length_app, IH. cbn. lia.
Qed.

Lemma peer_push_frame_per_peer_witness :
  writeBytesPass SelSendPeers
    (MkBridge [] true [MkPeer scenarioMac x01;
                       MkPeer (MkMac x01 x02 x03 x04 x05 x06) x0b])
    (MkChans [] false 0 1)
  = Some (Ok (MkChans [] false 0 0)
             ([] ++ [x33; x22; xaa; xbb; xcc; xdd; xee; xff; x01;
                     x33; x22; x01; x02; x03; x04; x05; x06; x0b])).
Proof.
  apply (peer_push_frame_per_peer
           (MkBridge [] true [MkPeer scenarioMac x01;
                              MkPeer (MkMac x01 x02 x03 x04 x05 x06) x0b])
           (MkChans [] false 0 1) 0);
    reflexivity.
Defined.

(** X10.  [assureWritten] on a link that takes each [Write] in part only:
    when it returns, the whole of [data] has gone out, in order, whatever
    the parts were; when a [Write] fails it ends in [log.Fatal] with a
    prefix of [data] on the connection.  For empty [data] there is no
    [Write] at all. *)
Theorem assureWritten_whatever_the_parts link data conn o :
  assureWrittenOn link data conn = Some o ->
  match o with
  | Ok link' conn' =>
    conn' = conn ++ data /\ assureWritten data conn = Ok tt conn'
    /\ (data = [] -> link' = link)
  | Fatal conn' => exists k, conn' = conn ++ take k data
  end.
Proof.
  revert data conn. induction link as [|w link IH]; intros data conn.
  - destruct data; [|done]. intros [= <-].
    unfold assureWritten. by rewrite app_nil_r.
  - destruct data as [|d data].
    { intros [= <-]. unfold assureWritten. by rewrite app_nil_r. }
    cbn [assureWrittenOn]. destruct w as [n|n].
    + intros Hrest. apply IH in Hrest. destruct o as [link' conn'|conn'].
      * destruct Hrest as (-> & _ & _). unfold assureWritten.
        by rewrite <- app_assoc, take_drop.
      * destruct Hrest as [k ->]. exists (n + k)%nat.
        by rewrite <- app_assoc, take_take_drop.
    + intros [= <-]. by exists n.
Qed.

Lemma assureWritten_whatever_the_parts_witness :
  [x00] ++ resetMessage = [x00] ++ resetMessage
  /\ assureWritten resetMessage [x00] = Ok tt ([x00] ++ resetMessage)
  /\ (resetMessage = [] -> [Wrote 7] = [Wrote 1; Wrote 0; Wrote 3; Wrote 7]).
Proof.
  apply (assureWritten_whatever_the_parts
           [Wrote 1; Wrote 0; Wrote 3; Wrote 7] resetMessage [x00]
           (Ok [Wrote 7] ([x00] ++ resetMessage))).
  reflexivity.
Defined.

(** ** More on the peer table *)

Lemma last_Permutation {A} (l : list A) x :
  last l = Some x -> l ≡ₚ x :: take (length l - 1) l.
Proof.
  intros Hl. apply last_Some in Hl as [l' ->].
  rewrite length_app. cbn [length].
  replace (length l' + 1 - 1)%nat with (length l') by lia.
  rewrite take_app_length. by rewrite Permutation_app_comm.
Qed.

(** Replacing an entry by the last one and dropping the last place loses
    that entry and nothing else. *)
Lemma swap_truncate_Permutation {A} (l : list A) k x lastx :
  l !! k = Some x -> last l = Some lastx ->
  l ≡ₚ x :: take (length l - 1) (<[k := lastx]> l).
Proof.
  revert k. induction l as [|a l IH]; intros k Hk Hlast; [done|].
  destruct l as [|a' l].
  { destruct k; [|done]. cbn in Hk, Hlast. by simplify_eq. }
  change (last (a :: a' :: l)) with (last (a' :: l)) in Hlast.
  replace (length (a :: a' :: l) - 1)%nat with (S (length (a' :: l) - 1))
    by (cbn; lia).
  destruct k as [|k]; cbn [lookup list_lookup] in Hk.
  - simplify_eq. cbn [insert list_insert take].
    replace (length (a' :: l) - 1)%nat with (length l) by (cbn; lia).
    constructor. apply last_Permutation in Hlast.
    by replace (length (a' :: l) - 1)%nat with (length l) in Hlast by (cbn; lia).
  - change (<[S k:=lastx]> (a :: a' :: l)) with (a :: <[k:=lastx]> (a' :: l)).
    cbn [take]. rewrite (IH k Hk Hlast) at 1. apply perm_swap.
Qed.

(** X11.  [RemovePeer] takes one entry with the address out of the table
    and leaves all the others, each as often as it was there; the order may
    change.  When no two peers of the table share an address, the address is
    gone afterwards and still no two peers share one. *)
Theorem RemovePeer_takes_one_out b m :
  ((exists p, p ∈ peers b /\ mac p = m) ->
     exists p, mac p = m /\ peers b ≡ₚ p :: peers (RemovePeer b m))
  /\ (NoDup (mac <$> peers b) ->
        (m ∉ (mac <$> peers (RemovePeer b m)))
        /\ NoDup (mac <$> peers (RemovePeer b m))).
Proof.
  assert (forall j, findPeer m (peers b) 0 = Some j ->
    exists p, mac p = m /\ peers b ≡ₚ p :: peers (RemovePeer b m)) as Hfound.
  { intros j Hf. unfold RemovePeer. rewrite Hf.
    destruct (findPeer_Some _ _ _ _ Hf) as (k & p & -> & Hk & Hp).
    pose proof (lookup_lt_Some _ _ _ Hk) as Hlt.
    destruct (peers b !! (length (peers b) - 1)%nat) as [lastPeer|] eqn:Hl;
      [|apply lookup_ge_None in Hl; lia].
    exists p. split; [done|]. cbn [peers Nat.add].
    apply swap_truncate_Permutation; [done|].
    by rewrite last_lookup, Nat.sub_1_r in *. }
  split.
  - intros (p0 & Hin0 & Hm0).
    destruct (findPeer m (peers b) 0) as [j|] eqn:Hf; [by eapply Hfound|].
    by destruct (findPeer_None _ _ _ Hf p0 Hin0).
  - intros Hnodup.
    destruct (findPeer m (peers b) 0) as [j|] eqn:Hf.
    + destruct (Hfound j eq_refl) as (p & Hp & Hperm).
      rewrite Hperm, fmap_cons, Hp in Hnodup.
      by apply NoDup_cons in Hnodup.
    + unfold RemovePeer. rewrite Hf. split; [|done].
      intros Hin. apply list_elem_of_fmap in Hin as (p & -> & Hin).
      by destruct (findPeer_None _ _ _ Hf p Hin).
Qed.

Lemma RemovePeer_takes_one_out_witness :
  exists p,
    mac p = scenarioMac
    /\ [MkPeer scenarioMac x01; MkPeer (MkMac x01 x02 x03 x04 x05 x06) x02;
        MkPeer scenarioMac x03]
       ≡ₚ p :: peers (RemovePeer
                        (MkBridge [] true
                           [MkPeer scenarioMac x01;
                            MkPeer (MkMac x01 x02 x03 x04 x05 x06) x02;
                            MkPeer scenarioMac x03])
                        scenarioMac).
Proof.
  apply (proj1 (RemovePeer_takes_one_out
                  (MkBridge [] true
                     [MkPeer scenarioMac x01;
                      MkPeer (MkMac x01 x02 x03 x04 x05 x06) x02;
                      MkPeer scenarioMac x03])
                  scenarioMac)).
  exists (MkPeer scenarioMac x01). split; [apply list_elem_of_here|reflexivity].
Defined.

(** ** More on WaitForConnected *)

Lemma waitLoop_past_the_end end_ clock :
  Forall (fun t => (end_ < t)%Z) clock ->
  waitLoop false end_ clock = None.
Proof.
  induction 1 as [|t clock Ht _ IH]; [done|]. cbn [waitLoop].
  by rewrite (proj2 (Z.ltb_lt _ _) Ht), IH.
Qed.

(** X12.  When the time allowed is over already as the loop condition is
    first tested (a negative [maxWait], say) and the clock does not go
    back: on a bridge whose flag is set the call returns at once; on one
    whose flag is not set it never returns, since the loop tests the flag
    of its own copy of the bridge and the time allowed stays over. *)
Theorem WaitForConnected_over_at_entry b maxWait t0 t1 clock :
  (t0 + maxWait < t1)%Z ->
  Forall (fun t => (t1 <= t)%Z) clock ->
  WaitForConnected b maxWait (t0 :: t1 :: clock) =
  if active b then Some 0%nat else None.
Proof.
  intros Hover Hclock. cbn [WaitForConnected waitLoop].
  rewrite (proj2 (Z.ltb_lt _ _) Hover). destruct (active b); [done|].
  rewrite waitLoop_past_the_end; [done|].
  eapply Forall_impl; [done|]. cbn. lia.
Qed.

Lemma WaitForConnected_over_at_entry_witness :
  WaitForConnected (MkBridge [] false []) (-1) [0; 10; 10000010; 20000010]%Z
  = None.
Proof.
  apply (WaitForConnected_over_at_entry (MkBridge [] false []) (-1) 0 10
           [10000010; 20000010]%Z).
  - lia.
  - repeat constructor; lia.
Defined.

(** ** Reassembler and writer together *)

Lemma service_run evs : forall ph b ch,
  accepts ph evs = true ->
  flagIn ph (active b) ->
  resetReq ch = 0%nat -> sendPeersReq ch = 0%nat ->
  exists b' ch',
    run (concat (map service evs)) b ch =
      Some (Ok (b', ch') (connection b ++ concat (map (serviced (peers b)) evs)))
    /\ Outbox ch' = Outbox ch.
Proof.
  induction evs as [|e evs IH]; intros ph [conn act ps] [box closed r s];
    cbn [accepts active resetReq sendPeersReq connection peers Outbox].
  - intros _ _ _ _. eexists _, _. cbn. by rewrite app_nil_r.
  - destruct (phaseStep ph e) as [ph'|] eqn:Hs; [|done].
    intros Hacc Hflag -> ->.
    assert (forall act' conn',
      flagIn ph' act' ->
      exists b' ch',
        run (concat (map service evs)) (MkBridge conn' act' ps)
            (MkChans box closed 0 0) =
          Some (Ok (b', ch') (conn' ++ concat (map (serviced ps) evs)))
        /\ Outbox ch' = box) as Hrest.
    { intros act' conn' Hflag'.
      by apply (IH ph' (MkBridge conn' act' ps) (MkChans box closed 0 0)). }
    cbn [map concat serviced].
    destruct ph, e as [| |m|[|]|]; cbn in Hs, Hflag; try done;
      try (destruct (_ <=? _)%nat; [|done]); simplify_eq;
      cbn [service app run step writeBytesPass active negb resetReq
             sendPeersReq Outbox OutboxClosed connection peers].
    all: try (by apply Hrest).
    + unfold bind, assureWritten, ret. cbn [setConnection active peers].
      rewrite app_assoc. by apply Hrest.
    + unfold bind, assureWritten, ret. cbn [setConnection active peers].
      rewrite app_assoc. by apply Hrest.
    + unfold bind at 1. rewrite sendPeerTable_frames.
      unfold ret. cbn [setConnection active peers].
      rewrite app_assoc. by apply Hrest.
Qed.



(** ** Streams of frames *)

Lemma reassemble_peers_header rest :
  reassembleMessages true (Recv x44 :: Recv x33 :: rest) =
  cons ESendPeers <$> reassembleMessages true rest.
Proof. by rewrite reassembleMessages_unfold. Qed.

(** X14.  In sync, a stream of well-formed frames, [55 44] frames with the
    CRC of their payload and requests for the peers in any order, is taken
    apart frame by frame: each Message is delivered as it was framed and
    each request is passed on, in the order of the stream, the flag is
    never cleared, and the reassembler goes on in sync with what follows. *)
Theorem frames_in_sync_are_decoded items rest :
  Forall (fun i => match i with
                   | InMessage msg => (length (Data msg) <= 255)%nat
                   | InPeers => True
                   end) items ->
  reassembleMessages true (map Recv (concat (map inboundBytes items)) ++ rest) =
  app (map inboundEvent items) <$> reassembleMessages true rest.
Proof.
  induction 1 as [|i items Hi _ IH]; cbn [map concat].
  - cbn [app]. by destruct (reassembleMessages true rest).
  - rewrite map_app, <- app_assoc. destruct i as [[m data]|]; cbn [inboundBytes].
    + cbn [Data Mac] in *. rewrite reassemble_frame by done.
      rewrite crcBytes_accepted, N.eqb_refl. cbn [negb]. rewrite IH.
      by destruct (reassembleMessages true rest).
    + cbn [map app]. rewrite reassemble_peers_header, IH.
      by destruct (reassembleMessages true rest).
Qed.

Lemma frames_in_sync_are_decoded_witness :
  reassembleMessages true
    (map Recv (concat (map inboundBytes
                         [InMessage (MkMessage scenarioMac hi); InPeers;
                          InMessage (MkMessage scenarioMac [])])) ++ [])
  = app (map inboundEvent
           [InMessage (MkMessage scenarioMac hi); InPeers;
            InMessage (MkMessage scenarioMac [])])
      <$> reassembleMessages true [].
Proof.
  apply (frames_in_sync_are_decoded
           [InMessage (MkMessage scenarioMac hi); InPeers;
            InMessage (MkMessage scenarioMac [])] []).
  repeat constructor; cbn; lia.
Defined.

(** X15.  The way back into sync.  In sync, after a [55 44] frame with a
    wrong CRC, bytes free of [0x11], the marker and a frame with the right
    CRC, the reassembler has cleared the flag, asked for a reset, set the
    flag again at the marker and delivered the Message of the second
    frame; nothing of the first frame is delivered. *)
Theorem resync_after_crc_failure m crc data pre m' data' rest :
  length crc = 2%nat ->
  (length data <= 255)%nat ->
  wireCRC crc <> uint16 (CRC.CalculateCRC data) ->
  x11 ∉ pre ->
  (length data' <= 255)%nat ->
  reassembleMessages true
    (map Recv (inboundFrame m crc data ++ pre ++ activationHeader
                 ++ inboundFrame m' (crcBytes data') data') ++ rest) =
  (fun evs => EActive false :: EReset :: EActive true
                :: EMsg (MkMessage m' data') :: evs)
    <$> reassembleMessages true rest.
Proof.
  intros Hcrc Hlen Hne Hpre Hlen'.
  apply detectedAfter_without_first in Hpre.
  rewrite map_app, <- app_assoc, reassemble_frame by done.
  rewrite (proj2 (N.eqb_neq _ _) Hne). cbn [negb].
  rewrite !map_app, <- !app_assoc.
  rewrite (reassemble_synced _ []
             (map Recv (inboundFrame m' (crcBytes data') data') ++ rest)).
  - rewrite reassemble_frame by done.
    rewrite crcBytes_accepted, N.eqb_refl. cbn [negb].
    by destruct (reassembleMessages true rest).
  - rewrite awaitMarker_detectedAfter by (rewrite Hpre; cbn; lia).
    rewrite Hpre. apply awaitMarker_header.
Qed.

Lemma resync_after_crc_failure_witness :
  reassembleMessages true
    (map Recv (inboundFrame scenarioMac (crcBytes hi) [x68; x6a] ++ [x00; x42]
                 ++ activationHeader
                 ++ inboundFrame scenarioMac (crcBytes hi) hi) ++ [])
  = Some [EActive false; EReset; EActive true;
          EMsg (MkMessage scenarioMac hi); EClose].
Proof.
  apply (resync_after_crc_failure scenarioMac (crcBytes hi) [x68; x6a]
           [x00; x42] scenarioMac hi []).
  - reflexivity.
  - cbn; lia.
  - vm_compute; discriminate.
  - intros H. repeat (apply elem_of_cons in H as [H|H]; [discriminate|]).
    by apply not_elem_of_nil in H.
  - cbn; lia.
Defined.

(** ** The Outbox is a queue *)

Lemma messageFrames_peers ps : messageFrames (map peerFrame ps) = [].
Proof.
  induction ps as [|p ps IH]; [done|]. cbn [map]. unfold messageFrames in *.
  by rewrite filter_cons_False.
Qed.

Lemma writeBytesPass_queue c b ch ch' conn' :
  OutboxClosed ch = false ->
  writeBytesPass c b ch = Some (Ok ch' conn') ->
  exists sent frames,
    Forall isFrame frames
    /\ conn' = connection b ++ concat frames
    /\ messageFrames frames = map outboundFrame sent
    /\ Outbox ch = sent ++ Outbox ch'
    /\ OutboxClosed ch' = false.
Proof.
  intros Hopen.
  assert (Forall isFrame [resetMessage]) as Hfr
    by (apply Forall_singleton; by left).
  assert (forall o : outcome chans,
    match resetReq ch with
    | O => None
    | S n => Some ((assureWritten resetMessage ;;
               ret (MkChans (Outbox ch) (OutboxClosed ch) n (sendPeersReq ch)))
                      (connection b))
    end = Some o -> o = Ok ch' conn' ->
    exists sent frames,
      Forall isFrame frames
      /\ conn' = connection b ++ concat frames
      /\ messageFrames frames = map outboundFrame sent
      /\ Outbox ch = sent ++ Outbox ch'
      /\ OutboxClosed ch' = false) as Hreset.
  { intros o. destruct (resetReq ch); [done|]. intros [= <-] [= <- <-].
    exists [], [resetMessage]. done. }
  unfold writeBytesPass.
  destruct (active b); cbn [negb]; destruct c; try done.
  - destruct (Outbox ch) as [|msg q] eqn:Hbox; [by rewrite Hopen|].
    unfold bind at 1.
    destruct (decide (length (Data msg) <= 250)%nat) as [Hlen|Hlen].
    + rewrite sendFrame_small by done. intros [= <- <-].
      exists [msg], [outboundFrame msg]. split.
      { apply Forall_singleton. right; left. by exists msg. }
      cbn. by rewrite app_nil_r.
    + by rewrite sendFrame_large by lia.
  - intros Hr. exact (Hreset _ Hr eq_refl).
  - destruct (sendPeersReq ch); [done|].
    unfold bind at 1. rewrite sendPeerTable_frames. intros [= <- <-].
    exists [], (map peerFrame (peers b)). split; [apply isFrame_peers|].
    by rewrite messageFrames_peers.
  - intros Hr. exact (Hreset _ Hr eq_refl).
  - intros [= <- <-]. exists [], []. split; [done|]. cbn. by rewrite app_nil_r.
Qed.

Lemma step_queue a b ch b' ch' conn' :
  OutboxClosed ch = false ->
  step a b ch = Some (Ok (b', ch') conn') ->
  exists sent frames,
    Forall isFrame frames
    /\ connection b' = connection b ++ concat frames
    /\ conn' = connection b'
    /\ messageFrames frames = map outboundFrame sent
    /\ sent ++ Outbox ch' = Outbox ch ++ queued [a]
    /\ OutboxClosed ch' = false.
Proof.
  intros Hopen.
  assert (forall q : list Message, [] ++ q = q ++ []) as Hnil
    by (intros; by rewrite app_nil_r).
  assert (connection b = connection b ++ concat []) as Hconn
    by (cbn; by rewrite app_nil_r).
  destruct a as [c|fl|m| |]; cbn [step].
  - destruct (writeBytesPass c b ch) as [[ch2 conn2|conn2]|] eqn:Hpass; [| |done];
      intros [= <- <- <-].
    destruct (writeBytesPass_queue _ _ _ _ _ Hopen Hpass)
      as (sent & frames & Hfs & -> & Hmsg & Hbox & Hopen').
    exists sent, frames. split; [done|]. split; [done|]. split; [done|].
    split; [done|]. split; [|done].
    rewrite Hbox. symmetry. apply app_nil_r.
  - intros [= <- <- <-]. exists [], []. by eauto 10.
  - rewrite Hopen. case_match; [done|]. intros [= <- <- <-].
    exists [], []. by eauto 10.
  - intros [= <- <- <-]. exists [], []. by eauto 10.
  - intros [= <- <- <-]. exists [], []. by eauto 10.
Qed.

(** X17.  When the application has closed the Outbox, the connection
    still open, and the Outbox is empty, a receive from it gives the zero
    Message at once, and the writer does not look at the second result of
    the receive: in sync, each pass on the Outbox then writes the frame of
    the zero Message, eleven bytes, and the channels are as they were, so
    any number of such passes writes as many of these frames. *)
Theorem closed_outbox_sends_zero_frames k b ch :
  active b = true ->
  Outbox ch = [] ->
  OutboxClosed ch = true ->
  run (replicate k (Pass SelBox)) b ch =
    Some (Ok (setConnection b
                (connection b ++ concat (replicate k (outboundFrame zeroMessage))),
              ch)
             (connection b ++ concat (replicate k (outboundFrame zeroMessage))))
  /\ outboundFrame zeroMessage =
       [x22; x11; x00; x00; x00; x00; x00; x00; x00; x00; x00].
Proof.
  intros Hact Hbox Hclosed. split; [|reflexivity].
  revert b Hact. induction k as [|k IH]; intros b Hact.
  - cbn. destruct b; cbn in *. by rewrite app_nil_r.
  - cbn [replicate run step]. unfold writeBytesPass.
    rewrite Hact, Hbox, Hclosed. cbn [negb]. unfold bind at 1.
    rewrite sendFrame_small by (cbn; lia). unfold ret.
    rewrite IH by done. cbn [setConnection connection active peers concat].
    by rewrite <- !app_assoc.
Qed.

Lemma closed_outbox_sends_zero_frames_witness :
  run (replicate 2 (Pass SelBox)) (MkBridge [] true []) (MkChans [] true 0 0) =
    Some (Ok (setConnection (MkBridge [] true [])
                ([] ++ concat (replicate 2 (outboundFrame zeroMessage))),
              MkChans [] true 0 0)
             ([] ++ concat (replicate 2 (outboundFrame zeroMessage)))).
Proof.
  apply (closed_outbox_sends_zero_frames 2 (MkBridge [] true [])
           (MkChans [] true 0 0));
    reflexivity.
Defined.

(** ** The writer on a link that may fail *)

Lemma take_of_prefix {A} k (l m : list A) :
  exists k', take k l = take k' (l ++ m).
Proof.
  destruct (decide (k <= length l)%nat).
  - exists k. by rewrite take_app_le.
  - exists (length l). by rewrite take_ge, take_app_length by lia.
Qed.

Lemma assureWrittenOn_wire link data conn o :
  assureWrittenOn link data conn = Some o ->
  match o with
  | Ok _ conn' => conn' = conn ++ data
  | Fatal conn' => exists k, conn' = conn ++ take k data
  end.
Proof.
  revert data conn. induction link as [|w link IH]; intros data conn.
  - destruct data; [|done]. intros [= <-]. by rewrite app_nil_r.
  - destruct data as [|d data]; [intros [= <-]; by rewrite app_nil_r|].
    cbn [assureWrittenOn]. destruct w as [n|n].
    + intros Hrest. apply IH in Hrest. destruct o as [link' conn'|conn'].
      * subst conn'. by rewrite <- app_assoc, take_drop.
      * destruct Hrest as [k ->]. exists (n + k)%nat.
        by rewrite <- app_assoc, take_take_drop.
    + intros [= <-]. by exists n.
Qed.

Lemma assureAllOn_wire link pieces conn o :
  assureAllOn link pieces conn = Some o ->
  match o with
  | Ok _ conn' => conn' = conn ++ concat pieces
  | Fatal conn' => exists k, conn' = conn ++ take k (concat pieces)
  end.
Proof.
  revert link conn. induction pieces as [|data pieces IH]; intros link conn;
    cbn [assureAllOn concat].
  - intros [= <-]. by rewrite app_nil_r.
  - destruct (assureWrittenOn link data conn) as [[link' conn'|conn']|] eqn:Hw;
      [| |done]; apply assureWrittenOn_wire in Hw.
    + subst conn'. intros Hrest. apply IH in Hrest.
      destruct o as [link'' conn''|conn''].
      * by rewrite Hrest, <- app_assoc.
      * destruct Hrest as [k ->]. exists (length data + k)%nat.
        by rewrite <- app_assoc, take_app_add.
    + destruct Hw as [k ->]. intros [= <-].
      destruct (take_of_prefix k data (concat pieces)) as [k' ->]. by exists k'.
Qed.

Lemma concat_framePieces msg : concat (framePieces msg) = outboundFrame msg.
Proof. unfold framePieces, outboundFrame. cbn [concat]. by rewrite app_nil_r. Qed.

Lemma concat_peerPieces ps :
  concat (concat (map peerPieces ps)) = concat (map peerFrame ps).
Proof.
  induction ps as [|p ps IH]; [done|]. cbn [map concat].
  rewrite concat_app, IH. unfold peerPieces, peerFrame. cbn [concat].
  by rewrite app_nil_r, <- !app_assoc.
Qed.

(** What a [select] does on the link, against the pass on a link that
    takes the writes: gone on, it has done the same; stopped in
    [log.Fatal], it has left a part of what the pass would have written. *)
Lemma writeSelectOn_pass seen c b ch link o :
  writeSelectOn seen c b ch link = Some o ->
  exists frames,
    Forall isFrame frames
    /\ match o with
       | Ok (ch', link') conn' =>
         conn' = connection b ++ concat frames
         /\ writeBytesPass c (MkBridge (connection b) seen (peers b)) ch =
              Some (Ok ch' conn')
       | Fatal conn' => exists k, conn' = connection b ++ take k (concat frames)
       end.
Proof.
  assert (forall pieces frames (ch' : chans) (m : W unit),
    Forall isFrame frames -> concat pieces = concat frames ->
    m (connection b) = Ok tt (connection b ++ concat frames) ->
    match assureAllOn link pieces (connection b) with
    | Some (Ok link' conn') => Some (Ok (ch', link') conn')
    | Some (Fatal conn') => Some (Fatal conn')
    | None => None
    end = Some o ->
    exists frames,
      Forall isFrame frames
      /\ match o with
         | Ok (ch'', link') conn' =>
           conn' = connection b ++ concat frames
           /\ Some ((m ;; ret ch') (connection b)) = Some (Ok ch'' conn')
         | Fatal conn' => exists k, conn' = connection b ++ take k (concat frames)
         end) as Hwrite.
  { intros pieces frames ch' m Hfs Hcat Hm.
    destruct (assureAllOn link pieces (connection b)) as [[link' conn'|conn']|] eqn:Ha;
      [| |done]; apply assureAllOn_wire in Ha; intros [= <-]; exists frames;
      (split; [done|]); rewrite Hcat in Ha; [|done].
    split; [done|]. unfold bind. by rewrite Hm, Ha. }
  unfold writeSelectOn, writeBytesPass. cbn [active connection peers].
  destruct seen; cbn [negb]; destruct c; try done.
  - destruct (Outbox ch) as [|msg q].
    + destruct (OutboxClosed ch); [|done].
      apply (Hwrite _ [outboundFrame zeroMessage]).
      * apply Forall_singleton. right; left. exists zeroMessage. split; [cbn; lia|done].
      * rewrite concat_framePieces. cbn. by rewrite ?app_nil_r.
      * rewrite sendFrame_small by (cbn; lia). cbn [concat]. by rewrite ?app_nil_r.
    + destruct (250 <? length (Data msg))%nat eqn:Hlen.
      * intros [= <-]. exists []. split; [done|]. exists 0%nat. cbn. by rewrite ?app_nil_r.
      * apply Nat.ltb_ge in Hlen. apply (Hwrite _ [outboundFrame msg]).
        -- apply Forall_singleton. right; left. by exists msg.
        -- rewrite concat_framePieces. cbn. by rewrite ?app_nil_r.
        -- rewrite sendFrame_small by done. cbn [concat]. by rewrite ?app_nil_r.
  - destruct (resetReq ch); [done|]. apply (Hwrite _ [resetMessage]); [|done..].
    apply Forall_singleton. by left.
  - destruct (sendPeersReq ch); [done|].
    apply (Hwrite _ (map peerFrame (peers b))).
    + apply isFrame_peers.
    + apply concat_peerPieces.
    + apply sendPeerTable_frames.
  - destruct (resetReq ch); [done|]. apply (Hwrite _ [resetMessage]); [|done..].
    apply Forall_singleton. by left.
  - intros [= <-]. exists []. split; [done|]. split; [|done].
    cbn. by rewrite ?app_nil_r.
Qed.

(** ** The frames of the writer tell themselves apart *)

Lemma isFrame_not_nil f : isFrame f -> f <> [].
Proof. by intros [->|[(msg & _ & ->)|(p & ->)]]. Qed.

(** No frame is the beginning of another. *)
Lemma isFrame_prefix_free f g r1 r2 :
  isFrame f -> isFrame g -> f ++ r1 = g ++ r2 -> f = g.
Proof.
  intros [->|[([m1 d1] & Hl1 & ->)|(p1 & ->)]]
         [->|[([m2 d2] & Hl2 & ->)|(p2 & ->)]];
    unfold outboundFrame, peerFrame, resetMessage, sendMessage, addPeer, mac_slice;
    cbn [Mac Data app] in *; try done; intros Heq.
  - injection Heq as ? ? ? ? ? ? Hc0 Hc1 Hlen Hdata.
    assert (length d1 = length d2) as Hlen'.
    { apply (f_equal (fun b => N.to_nat (Byte.to_N b))) in Hlen.
      by rewrite !uint8_length in Hlen by lia. }
    apply app_inj_1 in Hdata as [-> _]; [|done].
    destruct m1, m2; cbn in *. by simplify_eq.
  - injection Heq as ? ? ? ? ? ? ? _. destruct p1 as [[] ?], p2 as [[] ?].
    cbn in *. by simplify_eq.
Qed.

(** A wire made of whole frames is made of them in one way only. *)
Lemma frames_split_unique fs1 fs2 :
  Forall isFrame fs1 -> Forall isFrame fs2 ->
  concat fs1 = concat fs2 -> fs1 = fs2.
Proof.
  intros H1. revert fs2. induction H1 as [|f fs1 Hf _ IH]; intros fs2 H2.
  - destruct H2 as [|g fs2 Hg _]; [done|]. cbn [concat]. intros Heq.
    symmetry in Heq. apply app_eq_nil in Heq as [Hnil _].
    by apply isFrame_not_nil in Hg.
  - destruct H2 as [|g fs2 Hg H2]; cbn [concat].
    + intros Heq. apply app_eq_nil in Heq as [Hnil _].
      by apply isFrame_not_nil in Hf.
    + intros Heq. pose proof (isFrame_prefix_free _ _ _ _ Hf Hg Heq) as ->.
      apply app_inv_head in Heq. f_equal. by apply IH.
Qed.

(** The beginning of a sequence of frames: whole frames, and the beginning
    of one more. *)
Lemma take_concat_frames k fs :
  Forall isFrame fs ->
  exists fs1 f k',
    Forall isFrame fs1 /\ isFrame f
    /\ take k (concat fs) = concat fs1 ++ take k' f.
Proof.
  intros Hfs. revert k. induction Hfs as [|g fs Hg _ IH]; intros k.
  - exists [], resetMessage, 0%nat. split; [done|]. split; [by left|].
    cbn. by rewrite take_nil.
  - cbn [concat]. destruct (decide (k <= length g)%nat) as [Hk|Hk].
    + exists [], g, k. split; [done|]. split; [done|]. by rewrite take_app_le.
    + destruct (IH (k - length g)%nat) as (fs1 & f & k' & Hfs1 & Hf & Heq).
      exists (g :: fs1), f, k'. split; [by constructor|]. split; [done|].
      cbn [concat]. rewrite <- app_assoc, <- Heq.
      replace k with (length g + (k - length g))%nat at 1 by lia.
      by rewrite take_app_add.
Qed.

(** ** One move *)

Lemma moveStep_wire mv b ch pc link o :
  moveStep mv b ch pc link = Some o ->
  exists frames,
    Forall isFrame frames
    /\ match o with
       | Ok (b', _, _, _) conn' =>
         connection b' = connection b ++ concat frames /\ conn' = connection b'
       | Fatal conn' => exists k, conn' = connection b ++ take k (concat frames)
       end.
Proof.
  assert (connection b = connection b ++ concat []) as Hconn
    by (cbn; by rewrite app_nil_r).
  destruct mv as [|c|a]; cbn [moveStep].
  - destruct pc; [|done]. intros [= <-]. exists []; split; [constructor|]; cbn; by rewrite app_nil_r.
  - destruct pc as [|seen]; [done|].
    destruct (writeSelectOn seen c b ch link) as [o'|] eqn:Hsel; [|done].
    destruct (writeSelectOn_pass _ _ _ _ _ _ Hsel) as (frames & Hfs & Ho).
    destruct o' as [[ch' link'] conn'|conn']; intros [= <-]; exists frames;
      (split; [done|]); [|done].
    by destruct Ho as [-> _].
  - destruct a as [c|fl|m| |]; [done|..]; cbn [step].
    + intros [= <-]. exists []; split; [constructor|]; cbn; by rewrite app_nil_r.
    + destruct (OutboxClosed ch); [done|]. destruct (_ <=? _)%nat; [done|].
      intros [= <-]. exists []; split; [constructor|]; cbn; by rewrite app_nil_r.
    + intros [= <-]. exists []; split; [constructor|]; cbn; by rewrite app_nil_r.
    + intros [= <-]. exists []; split; [constructor|]; cbn; by rewrite app_nil_r.
Qed.

Lemma queuedMoves_app mvs1 mvs2 :
  queuedMoves (mvs1 ++ mvs2) = queuedMoves mvs1 ++ queuedMoves mvs2.
Proof. apply omap_app. Qed.

Lemma moveStep_queue mv b ch pc link b' ch' pc' link' conn' :
  OutboxClosed ch = false ->
  moveStep mv b ch pc link = Some (Ok (b', ch', pc', link') conn') ->
  exists sent frames,
    Forall isFrame frames
    /\ connection b' = connection b ++ concat frames
    /\ conn' = connection b'
    /\ messageFrames frames = map outboundFrame sent
    /\ sent ++ Outbox ch' = Outbox ch ++ queuedMoves [mv]
    /\ OutboxClosed ch' = false.
Proof.
  intros Hopen.
  assert (connection b = connection b ++ concat []) as Hconn
    by (cbn; by rewrite app_nil_r).
  assert (forall q : list Message, [] ++ q = q ++ []) as Hnil
    by (intros; by rewrite app_nil_r).
  destruct mv as [|c|a]; cbn [moveStep].
  - destruct pc; [|done]. intros [= <- <- <- <- <-]. exists [], []. by eauto 10.
  - destruct pc as [|seen]; [done|].
    destruct (writeSelectOn seen c b ch link) as [[[ch2 link2] conn2|conn2]|] eqn:Hsel;
      [| |done]; intros [= <- <- <- <- <-].
    destruct (writeSelectOn_pass _ _ _ _ _ _ Hsel) as (_ & _ & _ & Hpass).
    destruct (writeBytesPass_queue _ _ _ _ _ Hopen Hpass)
      as (sent & frames & Hfs & -> & Hmsg & Hbox & Hopen').
    exists sent, frames. split; [done|]. split; [done|]. split; [done|].
    split; [done|]. split; [|done]. rewrite Hbox. symmetry. apply app_nil_r.
  - destruct a as [c|fl|m| |]; [done|..];
      (destruct (step _ b ch) as [[[b2 ch2] conn2|conn2]|] eqn:Hstep; [| |done]);
      intros [= <- <- <- <- <-];
      exact (step_queue _ _ _ _ _ _ Hopen Hstep).
Qed.

Lemma moveStep_out_of_sync mv b ch pc link b' ch' pc' link' conn' :
  active b = false -> pc <> InSelect true -> mv <> Around (Flag true) ->
  moveStep mv b ch pc link = Some (Ok (b', ch', pc', link') conn') ->
  active b' = false /\ pc' <> InSelect true
  /\ Outbox ch' = Outbox ch ++ queuedMoves [mv]
  /\ exists k, connection b' = connection b ++ concat (replicate k resetMessage).
Proof.
  intros Hact Hpc Hmv.
  assert (exists k, connection b = connection b ++ concat (replicate k resetMessage))
    as Hconn by (exists 0%nat; cbn; by rewrite app_nil_r).
  assert (forall q : list Message, q = q ++ []) as Hnil
    by (intros; by rewrite app_nil_r).
  destruct mv as [|c|a]; cbn [moveStep].
  - destruct pc; [|done]. intros [= <- <- <- <- <-]. rewrite Hact. by eauto 10.
  - destruct pc as [|[|]]; [done..|].
    destruct (writeSelectOn false c b ch link) as [[[ch2 link2] conn2|conn2]|] eqn:Hsel;
      [| |done]; intros [= <- <- <- <- <-].
    destruct (writeSelectOn_pass _ _ _ _ _ _ Hsel) as (_ & _ & _ & Hpass).
    apply pass_out_of_sync in Hpass as [Hbox Hk]; [|done].
    split; [done|]. split; [done|]. split; [by rewrite Hbox; apply Hnil|done].
  - destruct a as [c|[|]|m| |]; [done|done|..]; cbn [step].
    + intros [= <- <- <- <- <-]. by eauto 10.
    + destruct (OutboxClosed ch); [done|]. destruct (_ <=? _)%nat; [done|].
      intros [= <- <- <- <- <-]. by eauto 10.
    + intros [= <- <- <- <- <-]. by eauto 10.
    + intros [= <- <- <- <- <-]. by eauto 10.
Qed.

(** ** Many moves *)

Lemma play_queue mvs : forall b ch pc link b1 ch1 pc1 link1 conn1,
  OutboxClosed ch = false ->
  play mvs b ch pc link = Some (Ok (b1, ch1, pc1, link1) conn1) ->
  exists taken frames,
    Forall isFrame frames
    /\ conn1 = connection b ++ concat frames
    /\ messageFrames frames = map outboundFrame taken
    /\ taken ++ Outbox ch1 = Outbox ch ++ queuedMoves mvs.
Proof.
  induction mvs as [|mv mvs IH]; intros b ch pc link b1 ch1 pc1 link1 conn1 Hopen;
    cbn [play].
  - intros [= <- <- <- <- <-]. exists [], []. split; [done|].
    cbn. by rewrite !app_nil_r.
  - destruct (moveStep mv b ch pc link) as [[[[[b' ch'] pc'] link'] conn'|conn']|]
      eqn:Hstep; [|done..].
    destruct (moveStep_queue _ _ _ _ _ _ _ _ _ _ Hopen Hstep)
      as (sent1 & fs1 & Hf1 & Hc1 & _ & Hm1 & Hq1 & Hopen').
    intros Hrun.
    destruct (IH _ _ _ _ _ _ _ _ _ Hopen' Hrun) as (sent2 & fs2 & Hf2 & -> & Hm2 & Hq2).
    exists (sent1 ++ sent2), (fs1 ++ fs2). split; [by apply Forall_app|].
    split; [|split].
    + by rewrite Hc1, concat_app, app_assoc.
    + unfold messageFrames in *. by rewrite filter_app, Hm1, Hm2, map_app.
    + rewrite <- app_assoc, Hq2, app_assoc, Hq1, <- app_assoc. f_equal.
      change (mv :: mvs) with ([mv] ++ mvs). by rewrite queuedMoves_app.
Qed.

Lemma play_out_of_sync mvs : forall b ch pc link b1 ch1 pc1 link1 conn1,
  active b = false -> pc <> InSelect true ->
  Forall (fun mv => mv <> Around (Flag true)) mvs ->
  play mvs b ch pc link = Some (Ok (b1, ch1, pc1, link1) conn1) ->
  Outbox ch1 = Outbox ch ++ queuedMoves mvs
  /\ exists k, conn1 = connection b ++ concat (replicate k resetMessage).
Proof.
  induction mvs as [|mv mvs IH];
    intros b ch pc link b1 ch1 pc1 link1 conn1 Hact Hpc Hmvs; cbn [play].
  - intros [= <- <- <- <- <-]. split; [by rewrite app_nil_r|].
    exists 0%nat. cbn. by rewrite app_nil_r.
  - apply Forall_cons in Hmvs as [Hmv Hmvs].
    destruct (moveStep mv b ch pc link) as [[[[[b' ch'] pc'] link'] conn'|conn']|]
      eqn:Hstep; [|done..].
    destruct (moveStep_out_of_sync _ _ _ _ _ _ _ _ _ _ Hact Hpc Hmv Hstep)
      as (Hact' & Hpc' & Hbox' & k' & Hconn').
    intros Hrun.
    destruct (IH _ _ _ _ _ _ _ _ _ Hact' Hpc' Hmvs Hrun) as (Hbox1 & k1 & ->).
    split.
    + rewrite Hbox1, Hbox', <- app_assoc. f_equal.
      change (mv :: mvs) with ([mv] ++ mvs). by rewrite queuedMoves_app.
    + exists (k' + k1)%nat.
      by rewrite Hconn', replicate_add, concat_app, app_assoc.
Qed.

Lemma play_wire mvs : forall b ch pc link o,
  play mvs b ch pc link = Some o ->
  exists frames,
    Forall isFrame frames
    /\ match o with
       | Ok _ conn' => conn' = connection b ++ concat frames
       | Fatal conn' => exists k, conn' = connection b ++ take k (concat frames)
       end.
Proof.
  induction mvs as [|mv mvs IH]; intros b ch pc link o; cbn [play].
  - intros [= <-]. exists []. split; [done|]. cbn. by rewrite app_nil_r.
  - destruct (moveStep mv b ch pc link) as [[[[[b' ch'] pc'] link'] conn'|conn']|]
      eqn:Hstep; [| |done];
      destruct (moveStep_wire _ _ _ _ _ _ Hstep) as (fs1 & Hf1 & Ho1).
    + destruct Ho1 as [Hc1 _]. intros Hrun.
      destruct (IH _ _ _ _ _ Hrun) as (fs2 & Hf2 & Ho2).
      exists (fs1 ++ fs2). split; [by apply Forall_app|].
      rewrite concat_app. destruct o as [st conn1|conn1].
      * by rewrite Ho2, Hc1, app_assoc.
      * destruct Ho2 as [k ->]. exists (length (concat fs1) + k)%nat.
        by rewrite Hc1, <- app_assoc, take_app_add.
    + intros [= <-]. by exists fs1.
Qed.

(** A run of the moves in which nothing comes between the flag being read
    and the [select], and which has gone on, is a run of the passes. *)
Lemma play_passes acts : forall b ch link b1 ch1 pc1 link1 conn1,
  play (concat (map movesOf acts)) b ch AtHead link =
    Some (Ok (b1, ch1, pc1, link1) conn1) ->
  pc1 = AtHead /\ run acts b ch = Some (Ok (b1, ch1) conn1).
Proof.
  induction acts as [|a acts IH]; intros b ch link b1 ch1 pc1 link1 conn1;
    cbn [map concat].
  - cbn. by intros [= <- <- <- <- <-].
  - destruct a as [c|fl|m| |]; cbn [movesOf app play moveStep run].
    + destruct (writeSelectOn (active b) c b ch link)
        as [[[ch2 link2] conn2|conn2]|] eqn:Hsel; [|done..].
      destruct (writeSelectOn_pass _ _ _ _ _ _ Hsel) as (_ & _ & _ & Hpass).
      destruct b as [conn act ps]. cbn [connection active peers] in *.
      cbn [step]. rewrite Hpass. apply IH.
    + apply IH.
    + cbn [step]. destruct (OutboxClosed ch); [done|]. destruct (_ <=? _)%nat; [done|]. apply IH.
    + apply IH.
    + apply IH.
Qed.

Lemma play_connection mvs : forall b ch pc link b1 ch1 pc1 link1 conn1,
  play mvs b ch pc link = Some (Ok (b1, ch1, pc1, link1) conn1) ->
  conn1 = connection b1.
Proof.
  induction mvs as [|mv mvs IH]; intros b ch pc link b1 ch1 pc1 link1 conn1;
    cbn [play].
  - by intros [= <- <- <- <- <-].
  - destruct (moveStep mv b ch pc link) as [[[[[b' ch'] pc'] link'] conn'|conn']|];
      [|done..]. apply IH.
Qed.

(** In sync, passes on the Outbox as far as its Messages are of legal
    size. *)
Lemma run_flush_prefix good : forall tail b ch,
  active b = true ->
  Outbox ch = good ++ tail ->
  Forall (fun m => (length (Data m) <= 250)%nat) good ->
  exists b2 ch2,
    run (replicate (length good) (Pass SelBox)) b ch =
      Some (Ok (b2, ch2) (connection b ++ concat (map outboundFrame good)))
    /\ Outbox ch2 = tail /\ active b2 = true
    /\ connection b2 = connection b ++ concat (map outboundFrame good).
Proof.
  induction good as [|m good IH]; intros tail b ch Hact Hbox Hsmall.
  - exists b, ch. cbn. by rewrite app_nil_r.
  - apply Forall_cons in Hsmall as [Hm Hsmall].
    cbn [length replicate run step].
    rewrite (pass_in_sync_box b ch m (good ++ tail) Hact Hbox Hm).
    destruct (IH tail (setConnection b (connection b ++ outboundFrame m))
                 (MkChans (good ++ tail) (OutboxClosed ch) (resetReq ch)
                          (sendPeersReq ch)))
      as (b2 & ch2 & Hrun & Htail & Hact2 & Hconn2); [done..|].
    exists b2, ch2. rewrite Hrun, Hconn2. cbn. by rewrite <- !app_assoc.
Qed.

Lemma pass_in_sync_box_large b ch m q :
  active b = true ->
  Outbox ch = m :: q ->
  (250 < length (Data m))%nat ->
  writeBytesPass SelBox b ch = Some (Fatal (connection b)).
Proof.
  intros Hact Hbox Hlen. unfold writeBytesPass. rewrite Hact, Hbox. cbn [negb].
  unfold bind at 1. by rewrite sendFrame_large.
Qed.

(** ** The writer and the flag *)




(** C10 (as amended).  Whatever the moves of the writer and around it, on
    whatever link, as long as the writer has not ended in [log.Fatal]:
    the Messages taken off the Outbox so far are on the wire, frame by
    frame in the order queued, and followed by those still in the Outbox
    they are the Messages that were in it and those queued since, in
    order.  While the flag stays unset, and unless the writer was waiting
    in the [select] of its connected branch already, nothing is taken
    off the Outbox and only reset frames are written.  Once the flag is
    set, as many passes on the Outbox as it holds Messages of legal size at
    its head write the frames of these, in order; at a Message of more than
    250 bytes the next such pass ends in [log.Fatal] with nothing more
    written, that Message and those behind it unsent. *)
Theorem queue_is_kept mvs b ch pc link b1 ch1 pc1 link1 conn1 :
  OutboxClosed ch = false ->
  play mvs b ch pc link = Some (Ok (b1, ch1, pc1, link1) conn1) ->
  (exists taken frames,
     Forall isFrame frames
     /\ conn1 = connection b ++ concat frames
     /\ messageFrames frames = map outboundFrame taken
     /\ taken ++ Outbox ch1 = Outbox ch ++ queuedMoves mvs)
  /\ (active b = false -> pc <> InSelect true ->
      Forall (fun mv => mv <> Around (Flag true)) mvs ->
      Outbox ch1 = Outbox ch ++ queuedMoves mvs
      /\ exists k, conn1 = connection b ++ concat (replicate k resetMessage))
  /\ (forall good tail,
        Outbox ch1 = good ++ tail ->
        Forall (fun m => (length (Data m) <= 250)%nat) good ->
        exists b2 ch2,
          run (Flag true :: replicate (length good) (Pass SelBox)) b1 ch1 =
            Some (Ok (b2, ch2) (conn1 ++ concat (map outboundFrame good)))
          /\ Outbox ch2 = tail
          /\ (forall bad rest,
                tail = bad :: rest -> (250 < length (Data bad))%nat ->
                run [Pass SelBox] b2 ch2 =
                  Some (Fatal (conn1 ++ concat (map outboundFrame good))))).
Proof.
  intros Hopen Hplay. split; [by eapply play_queue|]. split.
  - intros Hact Hpc Hmvs. by eapply play_out_of_sync.
  - intros good tail Hbox Hsmall.
    pose proof (play_connection _ _ _ _ _ _ _ _ _ _ Hplay) as ->.
    destruct (run_flush_prefix good tail
                (MkBridge (connection b1) true (peers b1)) ch1)
      as (b2 & ch2 & Hrun & Htail & Hact2 & Hconn2); [done..|].
    exists b2, ch2. cbn [run step]. split; [done|]. split; [done|].
    intros bad rest -> Hbad.
    rewrite (pass_in_sync_box_large b2 ch2 bad rest) by done.
    by rewrite Hconn2.
Qed.

Lemma queue_is_kept_witness :
  exists taken frames,
    Forall isFrame frames
    /\ resetMessage ++ outboundFrame (MkMessage scenarioMac hi)
       = [] ++ concat frames
    /\ messageFrames frames = map outboundFrame taken
    /\ taken ++ [MkMessage scenarioMac []]
       = [MkMessage scenarioMac hi]
           ++ queuedMoves [Test; Around (Send (MkMessage scenarioMac []));
                           Around AskReset; Receive SelReset;
                           Around (Flag true); Test; Receive SelBox].
Proof.
  apply (proj1 (queue_is_kept
    [Test; Around (Send (MkMessage scenarioMac [])); Around AskReset;
     Receive SelReset; Around (Flag true); Test; Receive SelBox]
    (MkBridge [] false []) (MkChans [MkMessage scenarioMac hi] false 0 0)
    AtHead [Wrote 1; Wrote 3; Wrote 2; Wrote 6; Wrote 2; Wrote 1; Wrote 2]
    (MkBridge (resetMessage ++ outboundFrame (MkMessage scenarioMac hi)) true [])
    (MkChans [MkMessage scenarioMac []] false 0 0) AtHead []
    (resetMessage ++ outboundFrame (MkMessage scenarioMac hi))
    eq_refl eq_refl)).
Defined.

(** C10 as it was stated fails, twice.  A Message of 251 bytes and the
    Message of the scenario are queued while the flag is not set; the flag
    is set; the pass on the Outbox ends in [log.Fatal] with nothing
    written, and neither Message is ever transmitted.  And a writer that
    waits in the [select] of its connected branch when the flag is cleared
    takes the Message queued after that off the Outbox. *)
Lemma oversized_message_stops_the_queue :
  play [Around (Send (MkMessage scenarioMac (repeat x00 251)));
        Around (Send (MkMessage scenarioMac hi));
        Around (Flag true); Test; Receive SelBox]
       (MkBridge [] false []) (MkChans [] false 0 0) AtHead []
  = Some (Fatal [])
  /\ play [Test; Around (Flag false); Around (Send (MkMessage scenarioMac hi));
           Receive SelBox]
          (MkBridge [] true []) (MkChans [] false 0 0) AtHead
          [Wrote 2; Wrote 6; Wrote 2; Wrote 1; Wrote 2]
     = Some (Ok (MkBridge (outboundFrame (MkMessage scenarioMac hi)) false [],
                 MkChans [] false 0 0, AtHead, [])
                (outboundFrame (MkMessage scenarioMac hi))).
Proof. vm_compute. split; reflexivity. Qed.

(** ** The wire *)

(** X9.  Whatever the moves of the writer and around it, and whatever the
    link does with the writes: as long as the writer goes on, what it has
    put on the connection is a sequence of whole frames, reset frames,
    [22 11] frames of Messages of at most 250 bytes and [33 22] frames of
    peers; when it has ended in [log.Fatal], for a Message too long or for
    a [Write] that failed, it is such a sequence followed by the beginning
    of one more frame, which may be empty. *)
Theorem wire_is_whole_frames mvs b ch pc link o :
  play mvs b ch pc link = Some o ->
  exists frames,
    Forall isFrame frames
    /\ match o with
       | Ok _ conn' => conn' = connection b ++ concat frames
       | Fatal conn' =>
         exists f k, isFrame f /\ conn' = connection b ++ concat frames ++ take k f
       end.
Proof.
  intros Hplay. destruct (play_wire _ _ _ _ _ _ Hplay) as (frames & Hfs & Ho).
  destruct o as [st conn'|conn']; [by exists frames|].
  destruct Ho as [k ->].
  destruct (take_concat_frames k frames Hfs) as (fs1 & f & k' & Hfs1 & Hf & ->).
  exists fs1. split; [done|]. by exists f, k'.
Qed.

Lemma wire_is_whole_frames_witness :
  exists frames,
    Forall isFrame frames
    /\ exists f k,
         isFrame f
         /\ resetMessage ++ [x22; x11; xaa] = [] ++ concat frames ++ take k f.
Proof.
  apply (wire_is_whole_frames
           [Around AskReset; Test; Receive SelReset; Around (Flag true); Test;
            Receive SelBox; Test]
           (MkBridge [] false []) (MkChans [MkMessage scenarioMac hi] false 0 0)
           AtHead [Wrote 4; Wrote 2; WriteFailed 1]
           (Fatal (resetMessage ++ [x22; x11; xaa]))).
  reflexivity.
Defined.

(** X16.  The Outbox is a queue the writer takes from at the head.
    Whatever the moves and the link, as long as the writer has not ended
    in [log.Fatal]: the wire is a sequence of whole frames, and in one way
    only; its [22 11] frames are, one for one and in order, the frames of
    the Messages taken off the Outbox; and these Messages followed by those
    still in the Outbox are the Messages that were in it at the start
    followed by those queued since. *)
Theorem outbox_is_fifo mvs b ch pc link b1 ch1 pc1 link1 conn1 :
  OutboxClosed ch = false ->
  play mvs b ch pc link = Some (Ok (b1, ch1, pc1, link1) conn1) ->
  exists taken frames,
    Forall isFrame frames
    /\ conn1 = connection b ++ concat frames
    /\ (forall frames', Forall isFrame frames' ->
          conn1 = connection b ++ concat frames' -> frames' = frames)
    /\ messageFrames frames = map outboundFrame taken
    /\ taken ++ Outbox ch1 = Outbox ch ++ queuedMoves mvs.
Proof.
  intros Hopen Hplay.
  destruct (play_queue _ _ _ _ _ _ _ _ _ _ Hopen Hplay)
    as (taken & frames & Hfs & -> & Hmsg & Hq).
  exists taken, frames. split; [done|]. split; [done|]. split; [|done].
  intros frames' Hfs' Heq. apply app_inv_head in Heq.
  by apply frames_split_unique.
Qed.

Lemma outbox_is_fifo_witness :
  exists taken frames,
    Forall isFrame frames
    /\ resetMessage ++ outboundFrame (MkMessage scenarioMac hi)
         ++ peerFrame (MkPeer scenarioMac x01)
       = [] ++ concat frames
    /\ (forall frames', Forall isFrame frames' ->
          resetMessage ++ outboundFrame (MkMessage scenarioMac hi)
            ++ peerFrame (MkPeer scenarioMac x01)
          = [] ++ concat frames' -> frames' = frames)
    /\ messageFrames frames = map outboundFrame taken
    /\ taken ++ [MkMessage scenarioMac []; MkMessage scenarioMac [x00]]
       = [MkMessage scenarioMac hi; MkMessage scenarioMac []]
           ++ queuedMoves
                [Around AskReset; Test; Receive SelReset; Around (Flag true);
                 Test; Receive SelBox;
                 Around (Send (MkMessage scenarioMac [x00])); Around AskPeers;
                 Test; Receive SelSendPeers].
Proof.
  apply (outbox_is_fifo
           [Around AskReset; Test; Receive SelReset; Around (Flag true);
            Test; Receive SelBox;
            Around (Send (MkMessage scenarioMac [x00])); Around AskPeers;
            Test; Receive SelSendPeers]
           (MkBridge [] false [MkPeer scenarioMac x01])
           (MkChans [MkMessage scenarioMac hi; MkMessage scenarioMac []] false 0 0)
           AtHead
           [Wrote 4; Wrote 2; Wrote 6; Wrote 2; Wrote 1; Wrote 2;
            Wrote 2; Wrote 6; Wrote 1]
           (MkBridge (resetMessage ++ outboundFrame (MkMessage scenarioMac hi)
                        ++ peerFrame (MkPeer scenarioMac x01))
                     true [MkPeer scenarioMac x01])
           (MkChans [MkMessage scenarioMac []; MkMessage scenarioMac [x00]] false 0 0)
           AtHead []);
    reflexivity.
Defined.
